(** * teleport: a tmux session launcher

    A shallow embedding of the Go program (the full variant with
    [ReadConfig], [ListScripts], [createSession], [attachSession] and [main],
    and the minimal variant of [main.go] that only prints the descriptors it
    finds), followed by the properties of the settings reader, the bounded
    directory walk, the session construction protocol and the exit codes.

    Go strings are byte strings: they are [string] here, a list of bytes.
    The settings map is a [gmap string string].  Every external process and
    every file system access is an explicit oracle, and everything the
    program prints or runs is recorded in an event log. *)

From Stdlib Require Import Ascii.
From stdpp Require Import base option list strings gmap pretty.

Local Open Scope string_scope.

(** ** The parts of Go's [strings] package that the program calls *)

Module Strings.

(** [strings.HasPrefix]. *)
Fixpoint HasPrefix (s prefix : string) {struct prefix} : bool :=
  match prefix with
  | EmptyString => true
  | String p prefix' =>
      match s with
      | EmptyString => false
      | String c s' => Ascii.eqb c p && HasPrefix s' prefix'
      end
  end.

(** [strings.Split(s, sep)] for a separator of one byte: the pieces between
    the separators, so a string without separator (the empty one too) gives
    exactly one piece. *)
Fixpoint Split (s : string) (sep : ascii) : list string :=
  match s with
  | EmptyString => [EmptyString]
  | String c s' =>
      if Ascii.eqb c sep then EmptyString :: Split s' sep
      else match Split s' sep with
           | [] => [String c EmptyString]
           | w :: ws => String c w :: ws
           end
  end.

(** [strings.Cut]: the text before and after the first separator. *)
Fixpoint Cut (s : string) (sep : ascii) : option (string * string) :=
  match s with
  | EmptyString => None
  | String c s' =>
      if Ascii.eqb c sep then Some (EmptyString, s')
      else match Cut s' sep with
           | Some (before, after) => Some (String c before, after)
           | None => None
           end
  end.

(** [strings.SplitN(s, sep, 2)]: at most two pieces, the second one being
    all of the text after the first separator. *)
Definition SplitN2 (s : string) (sep : ascii) : list string :=
  match Cut s sep with
  | Some (before, after) => [before; after]
  | None => [s]
  end.

(** The byte table [asciiSpace] of [strings.TrimSpace]:
    tab, line feed, vertical tab, form feed, carriage return, space. *)
Definition asciiSpace (c : ascii) : bool :=
  let n := Ascii.N_of_ascii c in
  ((9 <=? n) && (n <=? 13) || (n =? 32))%N.

(** [unicode.IsSpace] on the runes that take two or three bytes in UTF-8:
    U+0085, U+00A0; U+1680, U+2000..U+200A, U+2028, U+2029, U+202F, U+205F,
    U+3000. *)
Definition space2 (c1 c2 : ascii) : bool :=
  let n1 := Ascii.N_of_ascii c1 in
  let n2 := Ascii.N_of_ascii c2 in
  ((n1 =? 194) && ((n2 =? 133) || (n2 =? 160)))%N.

Definition space3 (c1 c2 c3 : ascii) : bool :=
  let n1 := Ascii.N_of_ascii c1 in
  let n2 := Ascii.N_of_ascii c2 in
  let n3 := Ascii.N_of_ascii c3 in
  ((n1 =? 225) && (n2 =? 154) && (n3 =? 128)
   || (n1 =? 226) && (n2 =? 128)
      && ((128 <=? n3) && (n3 <=? 138) || (n3 =? 168) || (n3 =? 169) || (n3 =? 175))
   || (n1 =? 226) && (n2 =? 129) && (n3 =? 159)
   || (n1 =? 227) && (n2 =? 128) && (n3 =? 128))%N.

(** Dropping the white space runes at the head of [s].  With [fwd = false]
    the string is read from its last byte backwards, so a rune's bytes come
    in reverse order. *)
Fixpoint trimHead (fwd : bool) (s : string) : string :=
  match s with
  | String c1 s1 =>
      if asciiSpace c1 then trimHead fwd s1
      else
        match s1 with
        | String c2 s2 =>
            if (if fwd then space2 c1 c2 else space2 c2 c1) then trimHead fwd s2
            else
              match s2 with
              | String c3 s3 =>
                  if (if fwd then space3 c1 c2 c3 else space3 c3 c2 c1)
                  then trimHead fwd s3
                  else s
              | EmptyString => s
              end
        | EmptyString => s
        end
  | EmptyString => s
  end.

Definition TrimLeft (s : string) : string := trimHead true s.
Definition TrimRight (s : string) : string :=
  String.rev (trimHead false (String.rev s)).

(** [strings.TrimSpace]: white space is removed at both ends. *)
Definition TrimSpace (s : string) : string := TrimRight (TrimLeft s).

End Strings.

(** The bytes of a string. *)
Fixpoint bytes (s : string) : list ascii :=
  match s with
  | EmptyString => []
  | String c s' => c :: bytes s'
  end.

(** A byte of the ASCII range that is not white space. *)
Definition plain (c : ascii) : bool :=
  (Ascii.N_of_ascii c <? 128)%N && negb (Strings.asciiSpace c).

(** A string of ASCII white space only. *)
Definition allSpace (s : string) : Prop :=
  Forall (λ c, Strings.asciiSpace c = true) (bytes s).

(** A string that is empty or begins and ends with a plain byte. *)
Definition plainEnds (s : string) : bool :=
  match bytes s with
  | [] => true
  | c :: _ => plain c && from_option plain false (last (bytes s))
  end.

(** ** Errors *)

(** A Go [error] is used by the program through its message only. *)
Definition error := string.

(** [fmt.Errorf(format ++ ": %v", err)]. *)
Definition Errorf (msg : string) (err : error) : error := msg +:+ ": " +:+ err.

(** ** The settings file *)

Abbreviation Config := (gmap string string).

Definition newline : ascii := Ascii.ascii_of_nat 10.
Definition equals : ascii := Ascii.ascii_of_nat 61.

(** The body of the loop of [ReadConfig] over the lines of the file. *)
Definition ReadConfig_line (config : Config) (line : string) : Config :=
  if bool_decide (line = EmptyString) || Strings.HasPrefix line "#" then config
  else
    match Strings.SplitN2 line equals with
    | [key; value] => <[key := Strings.TrimSpace value]> config
    | _ => config
    end.

(** A line that [ReadConfig] skips. *)
Definition skippedLine (line : string) : Prop :=
  line = EmptyString ∨ Strings.HasPrefix line "#" = true.

(** [ReadConfig] from the content of the file on. *)
Definition ReadConfig_data (data : string) : Config :=
  foldl ReadConfig_line ∅ (Strings.Split data newline).

(** [ReadConfig]: [homeDir] is the result of [os.UserHomeDir] and [readFile]
    the file system's answer to [ioutil.ReadFile]. *)
Definition ReadConfig (homeDir : error + string) (readFile : string → error + string)
  : error + Config :=
  match homeDir with
  | inl err => inl (Errorf "could not find home directory" err)
  | inr home =>
      match readFile (home +:+ "/.tp.conf") with
      | inl err => inl (Errorf "could not read config file" err)
      | inr data => inr (ReadConfig_data data)
      end
  end.

(** ** The file system as [filepath.Walk] sees it *)

(** What [os.Lstat] can report about an entry that is not a directory. *)
Inductive FileKind := Regular | Symlink | Special.

Inductive FileMode := ModeDir | ModeFile (kind : FileKind).

(** The two methods of [fs.FileInfo] that the program calls, and
    [Mode().IsRegular()], which it does not call. *)
Record FileInfo := { Name : string; Mode : FileMode }.

Definition IsDir (info : FileInfo) : bool :=
  match Mode info with ModeDir => true | ModeFile _ => false end.


(** A directory tree, with the I/O errors the walk can meet: [NoStat] is an
    entry on which [os.Lstat] fails, and a directory with [readErr = Some _]
    is one whose names cannot be read.  The entries of a directory are in the
    order in which [readDirNames] returns them. *)
Local Unset Elimination Schemes.
Inductive Tree :=
| File (name : string) (kind : FileKind)
| Dir (name : string) (readErr : option error) (entries : list Tree)
| NoStat (name : string) (err : error).
Local Set Elimination Schemes.

Definition nameOf (t : Tree) : string :=
  match t with
  | File name _ | Dir name _ _ | NoStat name _ => name
  end.

Definition isDirTree (t : Tree) : bool :=
  match t with Dir _ _ _ => true | _ => false end.

(** A path that [filepath.Walk] hands to its callback is the root joined with
    the names of the entries below it: it is kept as that list of names. *)
Definition Path := list string.

Definition PathSeparator : ascii := Ascii.ascii_of_nat 47.

(** One element of a path in the loop of [filepath.Clean], [out] being the
    elements written so far: an empty element and [.] are dropped; [..]
    removes the element written last, and where there is none to remove it is
    dropped in a rooted path and written in a relative one; any other element
    is written. *)
Definition Clean_element (rooted : bool) (out : list string) (element : string)
  : list string :=
  if bool_decide (element = EmptyString) || bool_decide (element = ".") then out
  else if bool_decide (element = "..") then
    match last out with
    | Some previous =>
        if bool_decide (previous = "..") then (out ++ [".."])%list
        else take (length out - 1) out
    | None => if rooted then out else (out ++ [".."])%list
    end
  else (out ++ [element])%list.

(** [filepath.Clean] on Unix: the elements that the loop has written, with
    one separator between them, after the separator of a rooted path; a
    relative path of which nothing is left is [.]. *)
Definition Clean (path : string) : string :=
  let rooted := Strings.HasPrefix path "/" in
  let out := foldl (Clean_element rooted) [] (Strings.Split path PathSeparator) in
  if rooted then "/" +:+ String.concat "/" out
  else match out with
       | [] => "."
       | _ => String.concat "/" out
       end.

(** [filepath.Join(dir, name)]: the elements that are not empty, joined with a
    separator and cleaned. *)
Definition Join2 (dir name : string) : string :=
  if bool_decide (dir = EmptyString) then
    if bool_decide (name = EmptyString) then EmptyString else Clean name
  else Clean (dir +:+ "/" +:+ name).

(** The path that [filepath.Walk] hands to its callback for the entry below
    the root at [path]: the root as it was given for the root itself, and
    [filepath.Join(dir, name)] for the entry [name] of the directory [dir]. *)
Definition Join (root : string) (path : Path) : string :=
  foldl Join2 root path.

(** [filepath.Rel(root, Join(root, path))].  On these paths [Rel] cannot
    fail; the root itself is ["."]. *)
Definition Rel (path : Path) : string :=
  match path with
  | [] => "."
  | _ => String.concat "/" path
  end.

(** What a [filepath.WalkFunc] returns besides [nil]. *)
Inductive WalkErr := SkipDir | Failure (err : error).

Section Walk.
Context {S : Type}.

Definition WalkFunc : Type :=
  Path → option FileInfo → option error → S → S * option WalkErr.

Variable walkFn : WalkFunc.

(** The loop of [filepath.walk] over the names of a directory, [walk]
    being the recursive call.  [SkipDir] from a directory, or from the
    callback on an entry that [Lstat] cannot read, is dropped; from a file
    it ends the loop. *)
Definition walkNames (walk : Path → Tree → S → S * option WalkErr) (path : Path)
  : list Tree → S → S * option WalkErr :=
  fix loop (entries : list Tree) (st : S) {struct entries} : S * option WalkErr :=
    match entries with
    | [] => (st, None)
    | e :: entries' =>
        let '(st', err) := walk (path ++ [nameOf e])%list e st in
        match err with
        | None => loop entries' st'
        | Some SkipDir =>
            if match e with File _ _ => false | _ => true end
            then loop entries' st'
            else (st', err)
        | Some (Failure _) => (st', err)
        end
    end.

(** [filepath.walk], and for an entry on which [Lstat] failed the call of
    the callback that its parent makes instead.  A directory's names are
    read before the callback is called on the directory. *)
Fixpoint walk (path : Path) (t : Tree) (st : S) {struct t} : S * option WalkErr :=
  match t with
  | NoStat _ err => walkFn path None (Some err) st
  | File name kind => walkFn path (Some {| Name := name; Mode := ModeFile kind |}) None st
  | Dir name readErr entries =>
      let '(st1, err1) :=
        walkFn path (Some {| Name := name; Mode := ModeDir |}) readErr st in
      match readErr, err1 with
      | None, None => walkNames walk path entries st1
      | _, _ => (st1, err1)
      end
  end.

(** [filepath.Walk]. *)
Definition Walk (root : Tree) (st : S) : S * option error :=
  let '(st', err) := walk [] root st in
  match err with
  | None | Some SkipDir => (st', None)
  | Some (Failure e) => (st', Some e)
  end.
End Walk.

(** The callback of [ListScripts]; the one of [main.go] is the same with
    [fmt.Println(path)] for [append(scripts, path)].  [filepath.Walk] passes
    no [FileInfo] only together with an error; the callback would
    dereference a nil one otherwise. *)
Definition ListScripts_visit (root : string) : WalkFunc (S := list string) :=
  λ path info err scripts,
    match err with
    | Some e => (scripts, Some (Failure e))
    | None =>
        let relativePath := Rel path in
        let depth := length (Strings.Split relativePath PathSeparator) in
        match info with
        | None => (scripts, Some (Failure "invalid memory address or nil pointer dereference"))
        | Some info =>
            if bool_decide (3 < depth)%nat then
              if IsDir info then (scripts, Some SkipDir) else (scripts, None)
            else if bool_decide (Name info = ".tmux") && negb (IsDir info)
                 then ((scripts ++ [Join root path])%list, None)
                 else (scripts, None)
        end
    end.

Definition ListScripts (root : string) (tree : Tree) : list string * option error :=
  Walk (ListScripts_visit root) tree [].

(** A callback that also records each call made to it. *)
Definition traced {S : Type} (walkFn : WalkFunc (S := S))
  : WalkFunc (S := list (Path * option error) * S) :=
  λ path info err '(calls, st),
    let '(st', r) := walkFn path info err st in
    ((calls ++ [(path, err)])%list, st', r).

(** The entries of a tree with their paths below the root, parents first;
    what cannot be read has no entries. *)
Fixpoint entriesOf (path : Path) (t : Tree) : list (Path * FileInfo) :=
  match t with
  | File name kind => [(path, {| Name := name; Mode := ModeFile kind |})]
  | Dir name readErr entries =>
      (path, {| Name := name; Mode := ModeDir |})
      :: match readErr with
         | Some _ => []
         | None => concat (map (λ e, entriesOf (path ++ [nameOf e])%list e) entries)
         end
  | NoStat _ _ => []
  end.

(** The descriptors of a tree, stated on its entries: those named [.tmux]
    that are not directories, at most 3 path segments below the root (the
    root itself being at depth 0). *)
Definition isDescriptor (e : Path * FileInfo) : bool :=
  bool_decide (Name e.2 = ".tmux") && negb (IsDir e.2) && bool_decide (length e.1 ≤ 3)%nat.

Definition descriptorsOf (root : string) (path : Path) (t : Tree) : list string :=
  map (λ e, Join root e.1) (filter (λ e, isDescriptor e = true) (entriesOf path t)).



(** A tree without I/O errors. *)
Fixpoint readable (t : Tree) : bool :=
  match t with
  | File _ _ => true
  | Dir _ None entries => forallb readable entries
  | Dir _ (Some _) _ => false
  | NoStat _ _ => false
  end.

(** What the walk of a subtree adds to [scripts], when it ends without
    failure; it fails on readable trees never. *)
Definition walk_result (root : string) (t : Tree) (path : Path)
    (scripts scripts' : list string) (r : option WalkErr) : Prop :=
  match r with
  | Some (Failure _) => readable t = false
  | Some SkipDir =>
      isDirTree t = true ∧ scripts' = (scripts ++ descriptorsOf root path t)%list
  | None => scripts' = (scripts ++ descriptorsOf root path t)%list
  end.

(** The calls to the callback that a walk adds, against its result: a
    failure is the error of the last call, and no call before had one. *)
Definition calls_result (new : list (Path * option error)) (r : option WalkErr) : Prop :=
  match r with
  | Some (Failure e) =>
      ∃ pre p, new = (pre ++ [(p, Some e)])%list ∧ Forall (λ c, c.2 = None) pre
  | _ => Forall (λ c, c.2 = None) new
  end.

(** No name in the tree holds a path separator. *)
Definition nameOk (name : string) : bool :=
  bool_decide (Strings.Split name PathSeparator = [name]).

Fixpoint namesOk (t : Tree) : bool :=
  match t with
  | Dir _ _ entries => forallb (λ e, nameOk (nameOf e) && namesOk e) entries
  | _ => true
  end.

(** Three trees: descriptors at [a/.tmux], [a/b/.tmux], [a/b/c/.tmux] and
    [a/b/c/d/.tmux] with a directory named [.tmux] beside them; a descriptor
    that is a symbolic link; and a root with two descriptors and an entry
    between them that cannot be read. *)
Definition scenarioTree : Tree :=
  Dir "r" None
    [ Dir ".tmux" None [];
      Dir "a" None
        [ File ".tmux" Regular;
          Dir "b" None
            [ File ".tmux" Regular;
              Dir "c" None
                [ File ".tmux" Regular;
                  Dir "d" None [ File ".tmux" Regular ] ] ] ];
      File "notes" Regular ].


Definition brokenTree : Tree :=
  Dir "r" None
    [ Dir "a" None [ File ".tmux" Regular ];
      NoStat "b" "lstat /r/b: permission denied";
      Dir "c" None [ File ".tmux" Regular ] ].

(** ** Session descriptors *)

Record TmuxWindow := { WindowName : string; Commands : list string }.

Record TmuxSession := { SessionName : string; Windows : list TmuxWindow }.

(** ** What the program does to the outside world *)

Inductive Event :=
| Stdout (line : string)
    (** a line written to standard output *)
| Exec (argv : list string)
    (** [exec.Command(argv...).Run()] *)
| ExecAttached (env : list string) (argv : list string)
    (** the same with the process's own terminal and [env] added to its
        environment *)
| Fzf (lines : list string)
    (** the picker started and fed these lines *)
| WriteFile (name data : string).

(** The environment of a run: the arguments of the process ([os.Args]), the
    answers of the file system, of the picker and of the multiplexer, and the
    library functions [json.Unmarshal], [json.MarshalIndent] and
    [filepath.Dir], which the program only calls.  [Lstat root] is the tree
    that [os.Lstat] and [readDirNames] show below [root]; [StdinPipe] is the
    error of [cmd.StdinPipe] and [Picker] the result of [cmd.Output] of
    [fzf]; [WriteFileErr] is the error of [ioutil.WriteFile]; [Tmux] is the
    error of [Run] for a [tmux] command line, which may depend on what has
    happened before. *)
Record World := {
  Args : list string;
  UserHomeDir : error + string;
  ReadFile : string → error + string;
  Stat : string → error + FileInfo;
  Lstat : string → Tree;
  StdinPipe : option error;
  Picker : list string → error + string;
  Unmarshal : string → error + TmuxSession;
  MarshalIndent : TmuxSession → error + string;
  WriteFileErr : string → option error;
  Dir_ : string → string;
  Tmux : list Event → list string → option error
}.

(** A program logs events and either returns or ends the process with
    [os.Exit]. *)
Inductive Outcome (A : Type) :=
| Return (a : A)
| Exit (code : Z).
Arguments Return {A} a.
Arguments Exit {A} code.

Definition Prog (A : Type) : Type := list Event → list Event * Outcome A.

Definition ret {A} (a : A) : Prog A := λ log, (log, Return a).

Definition bind {A B} (c : Prog A) (k : A → Prog B) : Prog B :=
  λ log,
    match c log with
    | (log', Return a) => k a log'
    | (log', Exit code) => (log', Exit code)
    end.

Definition emit (ev : Event) : Prog unit := λ log, ((log ++ [ev])%list, Return ()).

Definition os_Exit {A} (code : Z) : Prog A := λ log, (log, Exit code).

Notation "'do' x <- c ; k" := (bind c (λ x, k))
  (at level 10, x name, c at level 100, k at level 200).
Notation "c ;; k" := (bind c (λ _, k))
  (at level 100, k at level 200, right associativity).

(** The exit status of the process. *)
Definition exitCode {A} (o : Outcome A) : Z :=
  match o with Return _ => 0 | Exit code => code end.

(** [fmt.Sprintf("%s:%d", session.SessionName, i)] *)
Definition targetWindow (session : TmuxSession) (i : nat) : string :=
  SessionName session +:+ ":" +:+ pretty i.

Section Program.
Variable w : World.

(** [exec.Command("tmux", args...).Run()] *)
Definition tmux (args : list string) : Prog (option error) :=
  λ log, ((log ++ [Exec ("tmux" :: args)])%list, Return (Tmux w log ("tmux" :: args))).

Definition SelectScriptWithFzf (scripts : list string) : Prog (error + string) :=
  match StdinPipe w with
  | Some err => ret (inl err)
  | None =>
      emit (Fzf scripts) ;;
      match Picker w scripts with
      | inl err => ret (inl err)
      | inr output => ret (inr (Strings.TrimSpace output))
      end
  end.

Definition ReadSessionConfig (path : string) : error + TmuxSession :=
  match ReadFile w path with
  | inl err => inl (Errorf "could not read tmux config file" err)
  | inr data =>
      match Unmarshal w data with
      | inl err => inl (Errorf "could not parse tmux config" err)
      | inr session => inr session
      end
  end.

Definition sessionExists (name : string) : Prog bool :=
  do err <- tmux ["has-session"; "-t"; name];
  ret (bool_decide (err = None)).

(** The inner loop of [createSession], over the commands of window [i]. *)
Fixpoint sendCommands (targetWindow : string) (i : nat) (commands : list string)
  : Prog (option error) :=
  match commands with
  | [] => ret None
  | cmdStr :: commands' =>
      do err <- tmux ["send-keys"; "-t"; targetWindow; cmdStr; "C-m"];
      match err with
      | Some e => ret (Some (Errorf ("failed to send command to window " +:+ pretty i) e))
      | None => sendCommands targetWindow i commands'
      end
  end.

(** The outer loop of [createSession], from index [i] on. *)
Fixpoint createWindows (session : TmuxSession) (basePath : string)
    (i : nat) (windows : list TmuxWindow) : Prog (option error) :=
  match windows with
  | [] => ret None
  | window :: windows' =>
      let targetWindow := targetWindow session i in
      do err <-
        (if bool_decide (i = 0)
         then tmux ["rename-window"; "-t"; targetWindow; WindowName window]
         else tmux ["new-window"; "-t"; SessionName session; "-n"; WindowName window]);
      match err with
      | Some e => ret (Some (Errorf "failed to create window" e))
      | None =>
          do err <- tmux ["send-keys"; "-t"; targetWindow; "cd " +:+ basePath; "C-m"];
          match err with
          | Some e =>
              ret (Some (Errorf ("failed to change directory in window " +:+ pretty i) e))
          | None =>
              do err <- sendCommands targetWindow i (Commands window);
              match err with
              | Some e => ret (Some e)
              | None => createWindows session basePath (S i) windows'
              end
          end
      end
  end.

Definition createSession (session : TmuxSession) (basePath : string)
  : Prog (option error) :=
  do err <- tmux ["new-session"; "-d"; "-s"; SessionName session];
  match err with
  | Some e => ret (Some (Errorf "failed to create session" e))
  | None => createWindows session basePath 0 (Windows session)
  end.

Definition attachSession (name : string) : Prog (option error) :=
  emit (Stdout ("Attempting to attach to session: " +:+ name)) ;;
  λ log,
    let argv := ["tmux"; "attach-session"; "-t"; name] in
    ((log ++ [ExecAttached ["TERM=xterm-256color"] argv])%list,
     Return (match Tmux w log argv with
             | Some e => Some (Errorf "failed to attach to session" e)
             | None => None
             end)).

Definition minimalConfig : TmuxSession :=
  {| SessionName := "my-session";
     Windows := [ {| WindowName := "window1";
                     Commands := ["echo 'Hello, tmux!'"] |} ] |}.

Definition initTmuxConfig : Prog (option error) :=
  match MarshalIndent w minimalConfig with
  | inl err => ret (Some (Errorf "failed to marshal minimal config" err))
  | inr data =>
      emit (WriteFile ".tmux" data) ;;
      match WriteFileErr w ".tmux" with
      | Some err => ret (Some (Errorf "failed to write .tmux file" err))
      | None =>
          emit (Stdout "Created minimal .tmux file in the current directory.") ;;
          ret None
      end
  end.

(** The end of [main], from the existence check on: the session is
    attached to if it exists, and created and then attached to if not. *)
Definition materialize (sessionConfig : TmuxSession) (basePath : string) : Prog unit :=
  do exists_ <- sessionExists (SessionName sessionConfig);
  if exists_ then
    emit (Stdout ("Session " +:+ SessionName sessionConfig
                 +:+ " already exists. Attaching to it.")) ;;
    do err <- attachSession (SessionName sessionConfig);
    match err with
    | Some e => emit (Stdout ("Error attaching to session: " +:+ e))
    | None => ret ()
    end
  else
    do err <- createSession sessionConfig basePath;
    match err with
    | Some e => emit (Stdout ("Error creating session: " +:+ e)) ;; os_Exit 1
    | None =>
        do err <- attachSession (SessionName sessionConfig);
        match err with
        | Some e => emit (Stdout ("Error attaching to session: " +:+ e)) ;; os_Exit 1
        | None => ret ()
        end
    end.

(** [main], after the [init] subcommand and the settings: from the root
    directory on. *)
Definition main_root (root : string) : Prog unit :=
  let '(scripts, err) := ListScripts root (Lstat w root) in
  match err with
  | Some e => emit (Stdout ("Error listing scripts: " +:+ e)) ;; os_Exit 1
  | None =>
      if bool_decide (length scripts = 0) then
        emit (Stdout "No .tmux scripts found.") ;; os_Exit 1
      else
        do selected <- SelectScriptWithFzf scripts;
        match selected with
        | inl e => emit (Stdout ("Error selecting script: " +:+ e)) ;; os_Exit 1
        | inr selectedScript =>
            match ReadSessionConfig selectedScript with
            | inl e =>
                emit (Stdout ("Error reading tmux session configuration: " +:+ e)) ;;
                os_Exit 1
            | inr sessionConfig =>
                let basePath := Dir_ w selectedScript in
                materialize sessionConfig basePath
            end
        end
  end.

Definition validDirectory (root : string) : bool :=
  match Stat w root with
  | inl _ => false
  | inr stat => IsDir stat
  end.

Definition main : Prog unit :=
  if bool_decide (Args w !! 1 = Some "init") then
    do err <- initTmuxConfig;
    match err with
    | Some e => emit (Stdout ("Error initializing tmux config: " +:+ e)) ;; os_Exit 1
    | None => ret ()
    end
  else
    match ReadConfig (UserHomeDir w) (ReadFile w) with
    | inl e => emit (Stdout ("Error reading configuration: " +:+ e)) ;; os_Exit 1
    | inr config =>
        match config !! "TP_DIRECTORY" with
        | None => emit (Stdout "TP_DIRECTORY is not set in the configuration") ;; os_Exit 1
        | Some root =>
            if negb (validDirectory root) then
              emit (Stdout ("TP_DIRECTORY is not a valid directory (" +:+ root +:+ ")")) ;;
              os_Exit 1
            else main_root root
        end
    end.
End Program.

(** The runs of [main] that get as far as the search below [root]. *)
Definition reachesRoot (w : World) (root : string) : Prop :=
  Args w !! 1 ≠ Some "init"
  ∧ ∃ config, ReadConfig (UserHomeDir w) (ReadFile w) = inr config
              ∧ config !! "TP_DIRECTORY" = Some root
              ∧ validDirectory w root = true.

(** ** The minimal variant ([main.go]) *)

(** [getenv] is the value of [TP_DIRECTORY] in the environment ([EmptyString] when it
    is not set).  The callback prints where [ListScripts] appends, and the
    error of the walk is dropped. *)
Definition main_minimal (getenv : string) (w : World) : Prog unit :=
  let root := getenv in
  if bool_decide (root = EmptyString) then
    emit (Stdout "TP_DIRECTORY is not set") ;; os_Exit 1
  else
    match Stat w root with
    | inl _ => emit (Stdout ("TP_DIRECTORY does not exist (" +:+ root +:+ ")")) ;; os_Exit 1
    | inr stat =>
        if negb (IsDir stat) then
          emit (Stdout ("TP_DIRECTORY is not a directory (" +:+ root +:+ ")")) ;; os_Exit 1
        else
          λ log,
            let '(printed, _) := Walk (ListScripts_visit root) (Lstat w root) [] in
            ((log ++ map Stdout printed)%list, Return ())
    end.

(** ** The session construction protocol, step by step *)

(** The steps of [createSession]: the creation of the session and, for the
    window at index [i], its creation or renaming, the change of directory
    and the commands. *)
Inductive Step :=
| StepSession
| StepWindow (i : nat)
| StepCd (i : nat)
| StepCommand (i : nat).

(** The error that [createSession] returns when a step fails with [e]. *)
Definition stepError (step : Step) (e : error) : error :=
  match step with
  | StepSession => Errorf "failed to create session" e
  | StepWindow _ => Errorf "failed to create window" e
  | StepCd i => Errorf ("failed to change directory in window " +:+ pretty i) e
  | StepCommand i => Errorf ("failed to send command to window " +:+ pretty i) e
  end.

Definition newSessionCmd (session : TmuxSession) : list string :=
  ["tmux"; "new-session"; "-d"; "-s"; SessionName session].

Definition windowCmd (session : TmuxSession) (i : nat) (window : TmuxWindow) : list string :=
  if bool_decide (i = 0)
  then ["tmux"; "rename-window"; "-t"; targetWindow session i; WindowName window]
  else ["tmux"; "new-window"; "-t"; SessionName session; "-n"; WindowName window].

Definition sendKeysCmd (session : TmuxSession) (i : nat) (text : string) : list string :=
  ["tmux"; "send-keys"; "-t"; targetWindow session i; text; "C-m"].

Definition windowSteps (session : TmuxSession) (basePath : string)
    (i : nat) (window : TmuxWindow) : list (Step * list string) :=
  (StepWindow i, windowCmd session i window)
  :: (StepCd i, sendKeysCmd session i ("cd " +:+ basePath))
  :: map (λ cmdStr, (StepCommand i, sendKeysCmd session i cmdStr)) (Commands window).

Definition sessionSteps (session : TmuxSession) (basePath : string)
  : list (Step * list string) :=
  (StepSession, newSessionCmd session)
  :: concat (imap (windowSteps session basePath) (Windows session)).

Definition sessionCmds (session : TmuxSession) (basePath : string) : list (list string) :=
  map snd (sessionSteps session basePath).

(** Running steps in order up to the first one that fails. *)
Fixpoint runSteps (w : World) (steps : list (Step * list string)) : Prog (option error) :=
  match steps with
  | [] => ret None
  | (step, argv) :: steps' =>
      λ log,
        match Tmux w log argv with
        | Some e => ((log ++ [Exec argv])%list, Return (Some (stepError step e)))
        | None => runSteps w steps' (log ++ [Exec argv])%list
        end
  end.

(** The multiplexer commands of a log, in order. *)
Definition tmuxCmds (log : list Event) : list (list string) :=
  omap (λ ev, match ev with
              | Exec argv | ExecAttached _ argv => Some argv
              | _ => None
              end) log.

Definition isFzf (ev : Event) : bool :=
  match ev with Fzf _ => true | _ => false end.

Definition hasSessionCmd (name : string) : list string :=
  ["tmux"; "has-session"; "-t"; name].

Definition attachCmd (name : string) : list string :=
  ["tmux"; "attach-session"; "-t"; name].

(** A command that renames or creates a window. *)
Definition isWindowOp (argv : list string) : bool :=
  bool_decide (argv !! 1 = Some "rename-window")
  || bool_decide (argv !! 1 = Some "new-window").

(** A [send-keys] command that types [text]. *)
Definition isSendKeys (text : string) (argv : list string) : bool :=
  bool_decide (argv !! 1 = Some "send-keys") && bool_decide (argv !! 4 = Some text).

(** How many commands of the descriptor are [text] themselves. *)
Definition typedByUser (text : string) (session : TmuxSession) : nat :=
  sum_list_with (λ window, length (filter (λ cmdStr, cmdStr = text) (Commands window)))
    (Windows session).

(** The target of window position [i] in the words of the specification:
    the base index of the multiplexer plus [i]. *)
Definition specTarget (base : nat) (session : TmuxSession) (i : nat) : string :=
  SessionName session +:+ ":" +:+ pretty (base + i).

(** ** White space, as [strings.TrimSpace] understands it *)

(** The string begins with a white space rune of [unicode.IsSpace] in UTF-8:
    a byte of [asciiSpace], or the two or three bytes of one of the other
    runes.  With [fwd = false] the string is one that is read backwards, so
    the bytes of a rune come last byte first. *)
Definition startsWithSpace (fwd : bool) (s : string) : bool :=
  match s with
  | String c1 s1 =>
      Strings.asciiSpace c1
      || match s1 with
         | String c2 s2 =>
             (if fwd then Strings.space2 c1 c2 else Strings.space2 c2 c1)
             || match s2 with
                | String c3 _ =>
                    if fwd then Strings.space3 c1 c2 c3 else Strings.space3 c3 c2 c1
                | EmptyString => false
                end
         | EmptyString => false
         end
  | EmptyString => false
  end.

(** The string ends with a white space rune. *)
Definition endsWithSpace (s : string) : bool := startsWithSpace false (String.rev s).

(** The string is white space runes from its first byte to its last. *)
Fixpoint spaceRunes (fwd : bool) (s : string) : bool :=
  match s with
  | EmptyString => true
  | String c1 s1 =>
      Strings.asciiSpace c1 && spaceRunes fwd s1
      || match s1 with
         | String c2 s2 =>
             (if fwd then Strings.space2 c1 c2 else Strings.space2 c2 c1)
             && spaceRunes fwd s2
             || match s2 with
                | String c3 s3 =>
                    (if fwd then Strings.space3 c1 c2 c3 else Strings.space3 c3 c2 c1)
                    && spaceRunes fwd s3
                | EmptyString => false
                end
         | EmptyString => false
         end
  end.

Definition whiteSpace (s : string) : bool := spaceRunes true s.

(** U+00A0, the no-break space, in UTF-8. *)
Definition nbsp : string :=
  String (Ascii.ascii_of_nat 194) (String (Ascii.ascii_of_nat 160) EmptyString).

(** U+2003, the em space, in UTF-8. *)
Definition emSpace : string :=
  String (Ascii.ascii_of_nat 226)
    (String (Ascii.ascii_of_nat 128) (String (Ascii.ascii_of_nat 131) EmptyString)).

(** An exit status of 0 or 1. *)
Definition zeroOrOne (o : Outcome unit) : Prop := exitCode o = 0%Z ∨ exitCode o = 1%Z.

(** ** Example runs *)

(** The descriptor of the scenario of the specification. *)
Definition scenario : TmuxSession :=
  {| SessionName := "s";
     Windows := [ {| WindowName := "w1"; Commands := ["echo hi"] |} ] |}.

Definition threeWindows : TmuxSession :=
  {| SessionName := "s";
     Windows := [ {| WindowName := "edit"; Commands := ["vim"] |};
                  {| WindowName := "build"; Commands := ["make"; "make test"] |};
                  {| WindowName := "logs"; Commands := [] |} ] |}.

(** A world with a settings file that names [/r], the tree [tree] under it,
    a picker that chooses the first line, descriptor files that all hold
    [session], and the multiplexer [mux]. *)
Definition exampleWorld (tree : Tree) (session : TmuxSession)
    (mux : list Event → list string → option error) : World :=
  {| Args := ["tp"];
     UserHomeDir := inr "/home/u";
     ReadFile := λ name,
       if bool_decide (name = "/home/u/.tp.conf") then inr "TP_DIRECTORY=/r" else inr "{}";
     Stat := λ name, inr {| Name := "r"; Mode := ModeDir |};
     Lstat := λ _, tree;
     StdinPipe := None;
     Picker := λ lines, inr (default EmptyString (head lines));
     Unmarshal := λ _, inr session;
     MarshalIndent := λ _, inr "{}";
     WriteFileErr := λ _, None;
     Dir_ := λ _, "/proj";
     Tmux := mux |}.

(** Multiplexers: one on which only the commands in [failing] fail. *)
Definition muxFailing (failing : list (list string)) : list Event → list string → option error :=
  λ _ argv, if bool_decide (argv ∈ failing) then Some "exit status 1" else None.

(** ** Further definitions for the properties of the whole program *)

(** A line that leaves [key] as it was: it is skipped, or it is not [key],
    an equals sign and a value. *)
Definition leavesKey (key line : string) : Prop :=
  skippedLine line ∨ ∀ value, line ≠ key +:+ String equals value.

(** A tree cut [n] levels below its root: the directories at that level
    keep their name and the error of their listing, and lose their
    entries. *)
Fixpoint prune (n : nat) (t : Tree) {struct n} : Tree :=
  match t with
  | Dir name readErr entries =>
      match n with
      | 0 => Dir name readErr []
      | S n' => Dir name readErr (map (prune n') entries)
      end
  | _ => t
  end.

(** A tree with something that cannot be read five levels down, and a root
    that is a symbolic link. *)
Definition deepBrokenTree : Tree :=
  Dir "r" None
    [ Dir "a" None
        [ File ".tmux" Regular;
          Dir "b" None
            [ Dir "c" None
                [ Dir "d" None [ NoStat "e" "lstat /r/a/b/c/d/e: permission denied" ] ] ] ] ].

Definition linkedRoot : Tree := File "r" Symlink.

(** The texts that the [send-keys] commands of [cmds] type into the window
    [target], in order. *)
Definition typedInto (target : string) (cmds : list (list string)) : list string :=
  omap (λ argv,
          if bool_decide (argv !! 1 = Some "send-keys")
             && bool_decide (argv !! 3 = Some target)
          then argv !! 4 else None) cmds.

(** A run that has got as far as the multiplexer: the search below the
    root of the settings, the picker and the reading of the chosen
    descriptor have succeeded; the first command of the run is the existence
    check of the session that the descriptor names and, if [main] returns,
    the last one is the attach to it. *)
Definition ranSession (w : World) (new : list Event) (out : Outcome unit) : Prop :=
  ∃ root scripts output session rest,
    reachesRoot w root
    ∧ ListScripts root (Lstat w root) = (scripts, None)
    ∧ Picker w scripts = inr output
    ∧ ReadSessionConfig w (Strings.TrimSpace output) = inr session
    ∧ tmuxCmds new = hasSessionCmd (SessionName session) :: rest
    ∧ (out = Return () → last (tmuxCmds new) = Some (attachCmd (SessionName session))).

(** The example world with a picker that prints [output] whatever it is
    fed. *)
Definition pickerWorld (tree : Tree) (output : string) : World :=
  let w := exampleWorld tree scenario (muxFailing []) in
  {| Args := Args w;
     UserHomeDir := UserHomeDir w;
     ReadFile := ReadFile w;
     Stat := Stat w;
     Lstat := Lstat w;
     StdinPipe := StdinPipe w;
     Picker := λ _, inr output;
     Unmarshal := Unmarshal w;
     MarshalIndent := MarshalIndent w;
     WriteFileErr := WriteFileErr w;
     Dir_ := Dir_ w;
     Tmux := Tmux w |}.

(** A world with other arguments of the process. *)
Definition withArgs (args : list string) (w : World) : World :=
  {| Args := args;
     UserHomeDir := UserHomeDir w;
     ReadFile := ReadFile w;
     Stat := Stat w;
     Lstat := Lstat w;
     StdinPipe := StdinPipe w;
     Picker := Picker w;
     Unmarshal := Unmarshal w;
     MarshalIndent := MarshalIndent w;
     WriteFileErr := WriteFileErr w;
     Dir_ := Dir_ w;
     Tmux := Tmux w |}.

(** * Properties *)

Local Open Scope list_scope.

(** ** Byte strings *)

Section StringFacts.
Implicit Types (s t : string) (c sep : ascii).

Lemma append_cons c s t : String c s +:+ t = String c (s +:+ t).
Proof. reflexivity. Qed.

Lemma append_nil_l s : EmptyString +:+ s = s.
Proof. reflexivity. Qed.

Lemma append_nil_r s : s +:+ EmptyString = s.
Proof. induction s as [|c s IH]; [done | by rewrite append_cons, IH]. Qed.

Lemma append_assoc s t u : (s +:+ t) +:+ u = s +:+ (t +:+ u).
Proof. induction s as [|c s IH]; [done | by rewrite !append_cons, IH]. Qed.

Lemma rev_app_append s t : String.rev_app s t = String.rev s +:+ t.
Proof.
  unfold String.rev. revert t.
  induction s as [|c s IH]; intros t; simpl; [done |].
  by rewrite (IH (String c t)), (IH (String c EmptyString)), append_assoc.
Qed.

Lemma rev_cons c s : String.rev (String c s) = String.rev s +:+ String c EmptyString.
Proof. unfold String.rev at 1. simpl. apply rev_app_append. Qed.

Lemma rev_append s t : String.rev (s +:+ t) = String.rev t +:+ String.rev s.
Proof.
  induction s as [|c s IH].
  - change (String.rev EmptyString) with EmptyString. by rewrite append_nil_r.
  - by rewrite append_cons, !rev_cons, IH, append_assoc.
Qed.

Lemma rev_involutive s : String.rev (String.rev s) = s.
Proof.
  induction s as [|c s IH]; [done |].
  by rewrite rev_cons, rev_append, IH.
Qed.

Lemma bytes_append s t : bytes (s +:+ t) = (bytes s ++ bytes t)%list.
Proof. induction s as [|c s IH]; [done | by rewrite append_cons; simpl; rewrite IH]. Qed.

Lemma bytes_rev s : bytes (String.rev s) = reverse (bytes s).
Proof.
  induction s as [|c s IH]; [done |].
  rewrite rev_cons, bytes_append, IH. simpl. by rewrite reverse_cons.
Qed.

Lemma eqb_false c sep : c ≠ sep → Ascii.eqb c sep = false.
Proof. intros. by apply Ascii.eqb_neq. Qed.

(** *** [Cut] and [SplitN] cut at the first separator *)

Lemma Cut_None s sep : Strings.Cut s sep = None ↔ sep ∉ bytes s.
Proof.
  induction s as [|c s IH]; simpl.
  - split; [intros _; apply not_elem_of_nil | done].
  - destruct (Ascii.eqb_spec c sep) as [->|Hne].
    + split; [done | intros []; left].
    + rewrite not_elem_of_cons, <- IH.
      destruct (Strings.Cut s sep) as [[k v]|]; split; try done.
      by intros [_ ?].
Qed.

Lemma Cut_Some_1 s sep k v :
  Strings.Cut s sep = Some (k, v) → s = k +:+ String sep v ∧ sep ∉ bytes k.
Proof.
  revert k. induction s as [|c s IH]; intros k; simpl; [done |].
  destruct (Ascii.eqb_spec c sep) as [->|Hne].
  - intros [= <- <-]. split; [done | apply not_elem_of_nil].
  - destruct (Strings.Cut s sep) as [[k' v']|]; [|done].
    intros [= <- <-]. destruct (IH k' eq_refl) as [-> Hk].
    split; [done |]. simpl. by apply not_elem_of_cons.
Qed.

Lemma Cut_Some_2 k sep v :
  sep ∉ bytes k → Strings.Cut (k +:+ String sep v) sep = Some (k, v).
Proof.
  induction k as [|c k IH]; simpl.
  - intros _. by rewrite Ascii.eqb_refl.
  - intros [Hc Hk]%not_elem_of_cons.
    rewrite eqb_false by done. by rewrite IH.
Qed.

Lemma Cut_Some s sep k v :
  Strings.Cut s sep = Some (k, v) ↔ s = k +:+ String sep v ∧ sep ∉ bytes k.
Proof.
  split; [apply Cut_Some_1 |]. intros [-> Hk]. by apply Cut_Some_2.
Qed.

(** *** [Split] *)

Lemma Split_no_sep s sep : sep ∉ bytes s → Strings.Split s sep = [s].
Proof.
  induction s as [|c s IH]; simpl; [done |].
  intros [Hc Hs]%not_elem_of_cons.
  rewrite eqb_false by done. by rewrite IH.
Qed.

Lemma Split_no_sep_inv s sep : Strings.Split s sep = [s] → sep ∉ bytes s.
Proof.
  induction s as [|c s IH]; simpl; [intros _; apply not_elem_of_nil |].
  destruct (Ascii.eqb_spec c sep) as [->|Hne].
  - intros [=].
  - destruct (Strings.Split s sep) as [|x xs] eqn:E.
    + intros [= <-]. apply not_elem_of_cons. split; [done | apply not_elem_of_nil].
    + intros [= -> ->]. apply not_elem_of_cons. split; [done | by apply IH].
Qed.

Lemma Split_append s t sep :
  sep ∉ bytes s → Strings.Split (s +:+ String sep t) sep = s :: Strings.Split t sep.
Proof.
  induction s as [|c s IH]; simpl.
  - intros _. by rewrite Ascii.eqb_refl.
  - intros [Hc Hs]%not_elem_of_cons.
    rewrite eqb_false by done. by rewrite IH.
Qed.

Lemma Split_concat (names : list string) sep :
  names ≠ [] →
  Forall (λ name, sep ∉ bytes name) names →
  Strings.Split (String.concat (String sep EmptyString) names) sep = names.
Proof.
  intros Hne Hall. induction Hall as [|name names Hn Hall IH]; [done |].
  destruct names as [|name' names].
  - by apply Split_no_sep.
  - change (String.concat (String sep EmptyString) (name :: name' :: names))
      with (name +:+ String sep (String.concat (String sep EmptyString) (name' :: names))).
    rewrite Split_append by done. f_equal. by apply IH.
Qed.

(** *** [TrimSpace] *)

Lemma trimHead_spaces fwd s t :
  allSpace s → Strings.trimHead fwd (s +:+ t) = Strings.trimHead fwd t.
Proof.
  unfold allSpace. induction s as [|c s IH]; simpl; [done |].
  intros [Hc Hs]%Forall_cons. rewrite Hc. by apply IH.
Qed.

Lemma plain_not_space c : plain c = true → Strings.asciiSpace c = false.
Proof. unfold plain. intros [_ H]%andb_true_iff. by apply negb_true_iff. Qed.

Lemma plain_no_rune c c2 c3 :
  plain c = true →
  Strings.space2 c c2 = false ∧ Strings.space2 c2 c = false
  ∧ Strings.space3 c c2 c3 = false ∧ Strings.space3 c3 c2 c = false.
Proof.
  unfold plain, Strings.space2, Strings.space3.
  intros [Hc _]%andb_true_iff. apply N.ltb_lt in Hc.
  set (n := Ascii.N_of_ascii c) in *. clearbody n.
  generalize (Ascii.N_of_ascii c2) (Ascii.N_of_ascii c3). intros n2 n3.
  assert (Hk : ∀ k, (128 ≤ k)%N → (n =? k)%N = false)
    by (intros; apply N.eqb_neq; lia).
  assert (Hle : (128 <=? n)%N = false) by (apply N.leb_gt; lia).
  rewrite Hle, !Hk by lia.
  repeat split;
    repeat match goal with
      | |- context [(?a =? ?b)%N] => destruct (a =? b)%N
      | |- context [(?a <=? ?b)%N] => destruct (a <=? b)%N
      end; reflexivity.
Qed.

Lemma trimHead_plain fwd c s :
  plain c = true → Strings.trimHead fwd (String c s) = String c s.
Proof.
  intros Hc. simpl. rewrite (plain_not_space c Hc).
  destruct s as [|c2 [|c3 s]]; [done | ..];
    destruct (plain_no_rune c c2 c2 Hc) as (-> & -> & _ & _); [by destruct fwd |].
  destruct (plain_no_rune c c2 c3 Hc) as (_ & _ & -> & ->). by destruct fwd.
Qed.

Lemma allSpace_rev s : allSpace s → allSpace (String.rev s).
Proof. unfold allSpace. rewrite bytes_rev. apply Forall_reverse. Qed.

Lemma trimHead_allSpace fwd s : allSpace s → Strings.trimHead fwd s = EmptyString.
Proof.
  intros H. rewrite <- (append_nil_r s). by rewrite trimHead_spaces.
Qed.

Lemma string_snoc c s :
  ∃ init c', String c s = init +:+ String c' EmptyString ∧ last (bytes (String c s)) = Some c'.
Proof.
  revert c. induction s as [|c2 s IH]; intros c.
  - by exists EmptyString, c.
  - destruct (IH c2) as (init & c' & E & Hlast).
    exists (String c init), c'. rewrite append_cons, <- E. split; [done |].
    simpl in *. destruct (bytes s); done.
Qed.

(** White space around a value whose first and last bytes are plain is
    removed on the left and on the right. *)
Lemma TrimSpace_plainEnds l body r :
  allSpace l → allSpace r → plainEnds body = true →
  Strings.TrimSpace (l +:+ body +:+ r) = body.
Proof.
  intros Hl Hr Hb. unfold Strings.TrimSpace, Strings.TrimLeft, Strings.TrimRight.
  rewrite trimHead_spaces by done.
  destruct body as [|c body].
  - rewrite append_nil_l, (trimHead_allSpace true r Hr). done.
  - unfold plainEnds in Hb.
    destruct (string_snoc c body) as (init & c' & E & Hlast).
    rewrite Hlast in Hb. simpl in Hb. apply andb_true_iff in Hb as [Hc Hc'].
    rewrite append_cons, trimHead_plain, <- append_cons by done.
    rewrite rev_append, trimHead_spaces by (by apply allSpace_rev).
    rewrite E, rev_append. change (String.rev (String c' EmptyString)) with (String c' EmptyString).
    rewrite append_cons, append_nil_l, trimHead_plain by done.
    rewrite <- (append_nil_l (String.rev init)), <- append_cons.
    change (String c' EmptyString) with (String.rev (String c' EmptyString)).
    by rewrite <- rev_append, rev_involutive.
Qed.

Lemma TrimSpace_blank s : allSpace s → Strings.TrimSpace s = EmptyString.
Proof.
  intros H. unfold Strings.TrimSpace, Strings.TrimLeft, Strings.TrimRight.
  by rewrite (trimHead_allSpace true s H).
Qed.
End StringFacts.

(** ** White space at the two ends of a string *)

Section TrimFacts.
Implicit Types (s t l r body : string) (c : ascii) (fwd : bool).

Lemma string_length_ind (P : string → Prop) :
  (∀ s, (∀ t, (String.length t < String.length s)%nat → P t) → P s) → ∀ s, P s.
Proof.
  intros H s.
  assert (Hn : ∀ n t, (String.length t < n)%nat → P t).
  { induction n as [|n IH]; intros t Ht; [lia |].
    apply H. intros t' Ht'. apply IH. lia. }
  apply (Hn (S (String.length s))). lia.
Qed.

(** *** The bytes of the white space runes *)

Lemma asciiSpace_byte c :
  Strings.asciiSpace c = true → (Ascii.N_of_ascii c ≤ 32)%N.
Proof.
  unfold Strings.asciiSpace. cbv zeta.
  repeat (rewrite orb_true_iff || rewrite andb_true_iff).
  rewrite ?N.eqb_eq, ?N.leb_le. lia.
Qed.

Lemma space2_bytes c1 c2 :
  Strings.space2 c1 c2 = true →
  (Ascii.N_of_ascii c1 = 194 ∧ 133 ≤ Ascii.N_of_ascii c2 ≤ 160)%N.
Proof.
  unfold Strings.space2. cbv zeta.
  repeat (rewrite orb_true_iff || rewrite andb_true_iff).
  rewrite ?N.eqb_eq, ?N.leb_le. lia.
Qed.

Lemma space3_bytes c1 c2 c3 :
  Strings.space3 c1 c2 c3 = true →
  (225 ≤ Ascii.N_of_ascii c1 ≤ 227 ∧ 128 ≤ Ascii.N_of_ascii c2 ≤ 154
   ∧ 128 ≤ Ascii.N_of_ascii c3 ≤ 175)%N.
Proof.
  unfold Strings.space3. cbv zeta.
  repeat (rewrite orb_true_iff || rewrite andb_true_iff).
  rewrite ?N.eqb_eq, ?N.leb_le. lia.
Qed.

Lemma not_space2 c1 c2 :
  (Ascii.N_of_ascii c1 ≠ 194 ∨ Ascii.N_of_ascii c2 < 133 ∨ 160 < Ascii.N_of_ascii c2)%N →
  Strings.space2 c1 c2 = false.
Proof.
  intros H. destruct (Strings.space2 c1 c2) eqn:E; [|done].
  apply space2_bytes in E. lia.
Qed.

Lemma not_space3 c1 c2 c3 :
  (Ascii.N_of_ascii c1 < 225 ∨ 227 < Ascii.N_of_ascii c1
   ∨ Ascii.N_of_ascii c2 < 128 ∨ 154 < Ascii.N_of_ascii c2
   ∨ Ascii.N_of_ascii c3 < 128 ∨ 175 < Ascii.N_of_ascii c3)%N →
  Strings.space3 c1 c2 c3 = false.
Proof.
  intros H. destruct (Strings.space3 c1 c2 c3) eqn:E; [|done].
  apply space3_bytes in E. lia.
Qed.

(** *** What [trimHead] removes and what it leaves *)

Lemma trimHead_split fwd s :
  ∃ l, s = l +:+ Strings.trimHead fwd s ∧ spaceRunes fwd l = true.
Proof.
  induction s as [s IH] using string_length_ind.
  destruct s as [|c1 s1]; [by exists EmptyString |].
  cbn [Strings.trimHead].
  destruct (Strings.asciiSpace c1) eqn:E1.
  { destruct (IH s1) as (l & Hl & Hsp); [simpl; lia |].
    exists (String c1 l). rewrite append_cons, <- Hl. split; [done |].
    cbn [spaceRunes]. by rewrite E1, Hsp. }
  destruct s1 as [|c2 s2]; [by exists EmptyString |].
  destruct (if fwd then Strings.space2 c1 c2 else Strings.space2 c2 c1) eqn:E2.
  { destruct (IH s2) as (l & Hl & Hsp); [simpl; lia |].
    exists (String c1 (String c2 l)). rewrite !append_cons, <- Hl. split; [done |].
    cbn [spaceRunes]. by rewrite E1, E2, Hsp. }
  destruct s2 as [|c3 s3]; [by exists EmptyString |].
  destruct (if fwd then Strings.space3 c1 c2 c3 else Strings.space3 c3 c2 c1) eqn:E3.
  { destruct (IH s3) as (l & Hl & Hsp); [simpl; lia |].
    exists (String c1 (String c2 (String c3 l))). rewrite !append_cons, <- Hl.
    split; [done |].
    cbn [spaceRunes]. by rewrite E1, E2, E3, Hsp. }
  by exists EmptyString.
Qed.

Lemma trimHead_no_space fwd s :
  startsWithSpace fwd (Strings.trimHead fwd s) = false.
Proof.
  induction s as [s IH] using string_length_ind.
  destruct s as [|c1 s1]; [done |].
  cbn [Strings.trimHead].
  destruct (Strings.asciiSpace c1) eqn:E1; [apply IH; simpl; lia |].
  destruct s1 as [|c2 s2]; [simpl; by rewrite E1 |].
  destruct (if fwd then Strings.space2 c1 c2 else Strings.space2 c2 c1) eqn:E2;
    [apply IH; simpl; lia |].
  destruct s2 as [|c3 s3]; [simpl; by rewrite E1, E2 |].
  destruct (if fwd then Strings.space3 c1 c2 c3 else Strings.space3 c3 c2 c1) eqn:E3;
    [apply IH; simpl; lia |].
  simpl. by rewrite E1, E2, E3.
Qed.

Lemma trimHead_none fwd s :
  startsWithSpace fwd s = false → Strings.trimHead fwd s = s.
Proof.
  destruct s as [|c1 s1]; [done |]. cbn [startsWithSpace Strings.trimHead].
  destruct (Strings.asciiSpace c1); [done |].
  destruct s1 as [|c2 s2]; [done |].
  destruct (if fwd then Strings.space2 c1 c2 else Strings.space2 c2 c1); [done |].
  destruct s2 as [|c3 s3]; [done |].
  by destruct (if fwd then Strings.space3 c1 c2 c3 else Strings.space3 c3 c2 c1).
Qed.

Lemma startsWithSpace_append fwd s t :
  startsWithSpace fwd s = true → startsWithSpace fwd (s +:+ t) = true.
Proof.
  destruct s as [|c1 s1]; [done |]. rewrite append_cons. cbn [startsWithSpace].
  destruct (Strings.asciiSpace c1); [done |].
  destruct s1 as [|c2 s2]; [done |]. rewrite append_cons.
  destruct (if fwd then Strings.space2 c1 c2 else Strings.space2 c2 c1); [done |].
  destruct s2 as [|c3 s3]; [done |]. by rewrite append_cons.
Qed.

(** *** Strings of white space runes *)

Lemma spaceRunes_append fwd s t :
  spaceRunes fwd s = true → spaceRunes fwd t = true → spaceRunes fwd (s +:+ t) = true.
Proof.
  intros Hs Ht. induction s as [s IH] using string_length_ind.
  destruct s as [|c1 s1]; [done |]. rewrite append_cons.
  cbn [spaceRunes] in Hs |- *.
  apply orb_true_iff in Hs as [[H1 Hs]%andb_true_iff | Hs].
  { rewrite H1, IH by (done || simpl; lia). done. }
  apply orb_true_iff. right.
  destruct s1 as [|c2 s2]; [done |]. rewrite append_cons.
  apply orb_true_iff in Hs as [[H2 Hs]%andb_true_iff | Hs].
  { rewrite H2, IH by (done || simpl; lia). done. }
  apply orb_true_iff. right.
  destruct s2 as [|c3 s3]; [done |]. rewrite append_cons.
  apply andb_true_iff in Hs as [H3 Hs].
  by rewrite H3, IH by (done || simpl; lia).
Qed.

Lemma spaceRunes_1 fwd c : Strings.asciiSpace c = true → spaceRunes fwd (String c EmptyString) = true.
Proof. intros H. simpl. by rewrite H. Qed.

(** A string of white space runes stays one when it is reversed and read
    in the other direction. *)
Lemma spaceRunes_rev fwd s :
  spaceRunes fwd s = true → spaceRunes (negb fwd) (String.rev s) = true.
Proof.
  induction s as [s IH] using string_length_ind. intros Hs.
  destruct s as [|c1 s1]; [done |].
  cbn [spaceRunes] in Hs.
  apply orb_true_iff in Hs as [[H1 Hs]%andb_true_iff | Hs].
  { rewrite rev_cons. apply spaceRunes_append; [apply IH; [simpl; lia | done] |].
    by apply spaceRunes_1. }
  destruct s1 as [|c2 s2]; [done |].
  apply orb_true_iff in Hs as [[H2 Hs]%andb_true_iff | Hs].
  { rewrite !rev_cons, append_assoc.
    apply spaceRunes_append; [apply IH; [simpl; lia | done] |].
    change (String c2 EmptyString +:+ String c1 EmptyString) with (String c2 (String c1 EmptyString)).
    cbn [spaceRunes]. destruct fwd; simpl in *; rewrite H2; by rewrite ?orb_true_r. }
  destruct s2 as [|c3 s3]; [done |].
  apply andb_true_iff in Hs as [H3 Hs].
  rewrite !rev_cons, !append_assoc.
  apply spaceRunes_append; [apply IH; [simpl; lia | done] |].
  change (String c3 EmptyString +:+ String c2 EmptyString +:+ String c1 EmptyString)
    with (String c3 (String c2 (String c1 EmptyString))).
  cbn [spaceRunes]. destruct fwd; simpl in *; rewrite H3; by rewrite ?orb_true_r.
Qed.

Lemma allSpace_spaceRunes fwd s : allSpace s → spaceRunes fwd s = true.
Proof.
  unfold allSpace. induction s as [|c s IH]; [done |]. simpl bytes.
  intros [Hc Hs]%Forall_cons. cbn [spaceRunes]. by rewrite Hc, IH.
Qed.

(** White space runes at the head of a string are dropped, whatever
    follows them. *)
Lemma trimHead_runes fwd l t :
  spaceRunes fwd l = true → Strings.trimHead fwd (l +:+ t) = Strings.trimHead fwd t.
Proof.
  induction l as [l IH] using string_length_ind. intros Hl.
  destruct l as [|c1 l1]; [done |]. rewrite append_cons.
  cbn [spaceRunes] in Hl. cbn [Strings.trimHead].
  destruct (Strings.asciiSpace c1) eqn:E1.
  { apply asciiSpace_byte in E1.
    apply orb_true_iff in Hl as [Hl | Hl]; [by apply IH; [simpl; lia |] |].
    destruct l1 as [|c2 l2]; [done |].
    apply orb_true_iff in Hl as [[H2 _]%andb_true_iff | Hl].
    { destruct fwd; apply space2_bytes in H2; lia. }
    destruct l2 as [|c3 l3]; [done |].
    apply andb_true_iff in Hl as [H3 _].
    destruct fwd; apply space3_bytes in H3; lia. }
  simpl in Hl. destruct l1 as [|c2 l2]; [done |]. rewrite append_cons.
  destruct (if fwd then Strings.space2 c1 c2 else Strings.space2 c2 c1) eqn:E2.
  { apply orb_true_iff in Hl as [Hl | Hl]; [by apply IH; [simpl; lia |] |].
    destruct l2 as [|c3 l3]; [done |].
    apply andb_true_iff in Hl as [H3 _].
    destruct fwd; apply space2_bytes in E2; apply space3_bytes in H3; lia. }
  simpl in Hl. destruct l2 as [|c3 l3]; [done |]. rewrite append_cons.
  apply andb_true_iff in Hl as [H3 Hl]. rewrite H3.
  apply IH; [simpl; lia | done].
Qed.

(** A string that does not begin with a white space rune does not begin
    with one either when white space runes follow it. *)
Lemma startsWithSpace_before_runes body r :
  body ≠ EmptyString → startsWithSpace true body = false → spaceRunes true r = true →
  startsWithSpace true (body +:+ r) = false.
Proof.
  intros Hne Hb Hr.
  assert (Hhead : ∀ c r', r = String c r' →
            (Ascii.N_of_ascii c ≤ 32 ∨ 194 ≤ Ascii.N_of_ascii c ≤ 227)%N).
  { intros c r' ->. cbn [spaceRunes] in Hr.
    apply orb_true_iff in Hr as [[H1 _]%andb_true_iff | Hr];
      [apply asciiSpace_byte in H1; lia |].
    destruct r' as [|c2 r2]; [done |].
    apply orb_true_iff in Hr as [[H2 _]%andb_true_iff | Hr];
      [apply space2_bytes in H2; lia |].
    destruct r2 as [|c3 r3]; [done |].
    apply andb_true_iff in Hr as [H3 _]. apply space3_bytes in H3. lia. }
  destruct body as [|c1 [|c2 [|c3 body]]]; [done | ..];
    rewrite ?append_cons, ?append_nil_l; cbn [startsWithSpace] in Hb |- *.
  - rewrite orb_false_r in Hb. rewrite Hb. simpl.
    destruct r as [|d1 r1]; [done |].
    pose proof (Hhead d1 r1 eq_refl) as Hd1.
    rewrite (not_space2 c1 d1) by lia. simpl.
    destruct r1 as [|d2 r2]; [done |]. apply not_space3. lia.
  - apply orb_false_iff in Hb as [-> Hb]. rewrite orb_false_r in Hb. rewrite Hb. simpl.
    destruct r as [|d1 r1]; [done |].
    pose proof (Hhead d1 r1 eq_refl) as Hd1. apply not_space3. lia.
  - done.
Qed.

(** *** [TrimSpace] *)

(** What [TrimSpace] returns is the string without white space runes at
    its head and at its end, and what it removes is white space runes. *)
Lemma TrimSpace_trims s :
  (∃ l r, s = l +:+ Strings.TrimSpace s +:+ r ∧ whiteSpace l = true ∧ whiteSpace r = true)
  ∧ startsWithSpace true (Strings.TrimSpace s) = false
  ∧ endsWithSpace (Strings.TrimSpace s) = false.
Proof.
  unfold Strings.TrimSpace, Strings.TrimLeft, Strings.TrimRight, endsWithSpace, whiteSpace.
  destruct (trimHead_split true s) as (l & Hl & Hlsp).
  pose proof (trimHead_no_space true s) as Hstart.
  set (m := Strings.trimHead true s) in *.
  destruct (trimHead_split false (String.rev m)) as (r & Hr & Hrsp).
  pose proof (trimHead_no_space false (String.rev m)) as Hend.
  set (t := Strings.trimHead false (String.rev m)) in *.
  assert (Hm : m = String.rev t +:+ String.rev r)
    by (by rewrite <- rev_append, <- Hr, rev_involutive).
  split; [|split].
  - exists l, (String.rev r). split; [by rewrite <- Hm |]. split; [done |].
    by apply (spaceRunes_rev false).
  - destruct (startsWithSpace true (String.rev t)) eqn:E; [|done].
    apply (startsWithSpace_append true _ (String.rev r)) in E. congruence.
  - by rewrite rev_involutive.
Qed.

(** White space runes around a text without white space at its two ends
    are removed, and nothing else is. *)
Lemma TrimSpace_unique l body r :
  whiteSpace l = true → whiteSpace r = true →
  startsWithSpace true body = false → endsWithSpace body = false →
  Strings.TrimSpace (l +:+ body +:+ r) = body.
Proof.
  unfold whiteSpace, endsWithSpace. intros Hl Hr Hstart Hend.
  unfold Strings.TrimSpace, Strings.TrimLeft, Strings.TrimRight.
  rewrite trimHead_runes by done.
  destruct (decide (body = EmptyString)) as [->|Hne].
  - rewrite append_nil_l, <- (append_nil_r r), trimHead_runes by done. done.
  - rewrite (trimHead_none true) by (by apply startsWithSpace_before_runes).
    rewrite rev_append, trimHead_runes by (by apply (spaceRunes_rev true)).
    by rewrite trimHead_none, rev_involutive.
Qed.
End TrimFacts.

(** ** The settings reader *)

Section ConfigFacts.
Implicit Types (config : Config) (line key value : string).

Lemma HasPrefix_setting key value :
  Strings.HasPrefix (key +:+ String equals value) "#" = Strings.HasPrefix key "#".
Proof. destruct key; reflexivity. Qed.

Lemma setting_not_empty key value : key +:+ String equals value ≠ EmptyString.
Proof. by destruct key. Qed.

Lemma ReadConfig_line_skipped config line :
  skippedLine line → ReadConfig_line config line = config.
Proof.
  unfold ReadConfig_line. intros [-> | ->]; [done |]. by rewrite orb_true_r.
Qed.

Lemma ReadConfig_line_no_equals config line :
  equals ∉ bytes line → ReadConfig_line config line = config.
Proof.
  intros H%Cut_None. unfold ReadConfig_line, Strings.SplitN2. rewrite H.
  by destruct (_ || _).
Qed.

Lemma ReadConfig_line_setting config key value :
  equals ∉ bytes key → Strings.HasPrefix key "#" = false →
  ReadConfig_line config (key +:+ String equals value)
  = <[key := Strings.TrimSpace value]> config.
Proof.
  intros Hk Hc. unfold ReadConfig_line, Strings.SplitN2.
  rewrite HasPrefix_setting, Hc, Cut_Some_2 by done.
  rewrite bool_decide_eq_false_2 by apply setting_not_empty. done.
Qed.

Lemma ReadConfig_line_other config key line :
  skippedLine line ∨ (∀ value, line ≠ key +:+ String equals value) →
  ReadConfig_line config line !! key = config !! key.
Proof.
  intros [H | H]; [by rewrite ReadConfig_line_skipped |].
  unfold ReadConfig_line, Strings.SplitN2.
  destruct (_ || _); [done |].
  destruct (Strings.Cut line equals) as [[k v]|] eqn:E; [|done].
  apply Cut_Some_1 in E as [-> Hk].
  apply lookup_insert_ne. intros ->. by apply (H v).
Qed.

Lemma ReadConfig_lines_other config key (lines : list string) :
  Forall (λ line, skippedLine line ∨ ∀ value, line ≠ key +:+ String equals value) lines →
  foldl ReadConfig_line config lines !! key = config !! key.
Proof.
  intros H. revert config. induction H as [|line lines Hl _ IH]; intros config; simpl.
  - done.
  - by rewrite IH, ReadConfig_line_other.
Qed.


Lemma skippedLine_test line :
  bool_decide (line = EmptyString) || Strings.HasPrefix line "#" = true ↔ skippedLine line.
Proof.
  unfold skippedLine. rewrite orb_true_iff, bool_decide_eq_true. done.
Qed.

(** A line after which [key] is set either left it as it was or is [key],
    an equals sign and a value, of which the setting is the trimmed form. *)
Lemma ReadConfig_line_set config key line v :
  equals ∉ bytes key →
  ReadConfig_line config line !! key = Some v →
  (config !! key = Some v ∧ leavesKey key line)
  ∨ ∃ value, line = key +:+ String equals value
             ∧ Strings.HasPrefix key "#" = false
             ∧ v = Strings.TrimSpace value.
Proof.
  intros Hkey. unfold ReadConfig_line, Strings.SplitN2, leavesKey.
  destruct (bool_decide (line = EmptyString) || Strings.HasPrefix line "#") eqn:Hskip.
  { intros H. left. split; [done |]. left. by apply skippedLine_test. }
  destruct (Strings.Cut line equals) as [[k value]|] eqn:Hcut.
  - destruct (decide (k = key)) as [->|Hne].
    + rewrite lookup_insert_eq. intros [= <-]. right. exists value.
      apply Cut_Some_1 in Hcut as [-> _].
      apply orb_false_iff in Hskip as [_ Hskip].
      by rewrite HasPrefix_setting in Hskip.
    + rewrite lookup_insert_ne by done. intros H. left. split; [done |].
      right. intros value' ->. rewrite Cut_Some_2 in Hcut by done. congruence.
  - intros H. left. split; [done |].
    right. intros value ->. rewrite Cut_Some_2 in Hcut by done. congruence.
Qed.

(** The setting of [key] after a run of lines comes from the last line
    that is [key], an equals sign and a value and is not skipped. *)
Lemma ReadConfig_lines_set config key (lines : list string) v :
  equals ∉ bytes key →
  foldl ReadConfig_line config lines !! key = Some v →
  (config !! key = Some v ∧ Forall (leavesKey key) lines)
  ∨ ∃ before value after,
      lines = before ++ (key +:+ String equals value) :: after
      ∧ Strings.HasPrefix key "#" = false
      ∧ Forall (leavesKey key) after
      ∧ v = Strings.TrimSpace value.
Proof.
  intros Hkey. revert config.
  induction lines as [|line lines IH]; intros config; simpl.
  - intros H. left. split; [done | constructor].
  - intros H. apply IH in H as [[H Hlines] | (before & value & after & -> & Hhash & Hafter & ->)].
    + apply ReadConfig_line_set in H as [[H Hline] | (value & -> & Hhash & ->)]; [| |done].
      * left. split; [done | by constructor].
      * right. by exists [], value, lines.
    + right. by exists (line :: before), value, after.
Qed.
End ConfigFacts.

(** C9, as the code has it (the value is trimmed on both sides).  For every
    content of the settings file and every key, the reader maps the key to
    [v] exactly when the lines of the file are some lines, then the key, an
    equals sign and a value, then lines that are skipped (empty, or starting
    with [#]) or are not the key, an equals sign and a value, where the key
    does not start with [#] and [v] is [strings.TrimSpace] of the value: the
    line is cut at the first [=], whatever follows it, and the last line
    that sets a key wins.  [strings.TrimSpace] removes white space on the
    left and on the right, the white space runes of Unicode included: what
    it removes on either side is white space runes only, what it returns
    neither begins nor ends with one, and so around a text that neither
    begins nor ends with one it removes the white space runes on both sides
    and nothing else.  When the key is [TP_DIRECTORY], the value so trimmed
    is the root that [main] searches for descriptors. *)
Theorem ReadConfig_trims_both_sides (data key : string) :
  equals ∉ bytes key →
  (∀ v, ReadConfig_data data !! key = Some v
        ↔ ∃ before value after,
            Strings.Split data newline = before ++ (key +:+ String equals value) :: after
            ∧ Strings.HasPrefix key "#" = false
            ∧ Forall (leavesKey key) after
            ∧ v = Strings.TrimSpace value)
  ∧ (∀ value,
        (∃ l r, value = l +:+ Strings.TrimSpace value +:+ r
                ∧ whiteSpace l = true ∧ whiteSpace r = true)
        ∧ startsWithSpace true (Strings.TrimSpace value) = false
        ∧ endsWithSpace (Strings.TrimSpace value) = false)
  ∧ (∀ l body r,
        whiteSpace l = true → whiteSpace r = true →
        startsWithSpace true body = false → endsWithSpace body = false →
        Strings.TrimSpace (l +:+ body +:+ r) = body)
  ∧ (∀ w home root,
        key = "TP_DIRECTORY" →
        ReadConfig_data data !! key = Some root →
        Args w !! 1 ≠ Some "init" →
        UserHomeDir w = inr home →
        ReadFile w (home +:+ "/.tp.conf") = inr data →
        validDirectory w root = true →
        main w = main_root w root).
Proof.
  intros Hkey. split; [|split; [|split]].
  - intros v. unfold ReadConfig_data. split.
    + intros H. apply ReadConfig_lines_set in H as [[H _] | H]; [by rewrite lookup_empty in H | done | done].
    + intros (before & value & after & -> & Hhash & Hafter & ->).
      rewrite foldl_app. simpl. rewrite ReadConfig_lines_other by done.
      rewrite ReadConfig_line_setting by done. by rewrite lookup_insert_eq.
  - apply TrimSpace_trims.
  - apply TrimSpace_unique.
  - intros w home root -> Hlookup Hargs Hhome Hfile Hdir. unfold main, ReadConfig.
    rewrite bool_decide_eq_false_2 by done.
    rewrite Hhome, Hfile, Hlookup, Hdir. done.
Qed.

Lemma ReadConfig_trims_both_sides_witness :
  ReadConfig_data
    (String.concat (String newline EmptyString)
       ["# settings"; EmptyString;
        "TP_DIRECTORY=" +:+ nbsp +:+ " /srv/é=a" +:+ emSpace +:+ " ";
        "#TP_DIRECTORY=/other"; "EDITOR=vi"; "junk"])
    !! "TP_DIRECTORY" = Some "/srv/é=a".
Proof.
  refine (proj2 (proj1 (ReadConfig_trims_both_sides _ "TP_DIRECTORY" _) "/srv/é=a") _).
  - apply (bool_decide_unpack _). vm_compute. exact I.
  - exists ["# settings"; EmptyString], (nbsp +:+ " /srv/é=a" +:+ emSpace +:+ " "),
      ["#TP_DIRECTORY=/other"; "EDITOR=vi"; "junk"].
    split; [reflexivity |]. split; [reflexivity |]. split; [|reflexivity].
    constructor; [left; right; reflexivity |].
    constructor; [right; intros value; discriminate |].
    constructor; [right; intros value; discriminate |]. constructor.
Defined.

(** C9, as the specification words it: a value is not trimmed on its right
    side only; the white space before it goes too. *)
Lemma ReadConfig_not_right_trimmed_only :
  ReadConfig_data "TP_DIRECTORY= /srv/tmux  " !! "TP_DIRECTORY" = Some "/srv/tmux"
  ∧ Strings.TrimRight " /srv/tmux  " = " /srv/tmux"
  ∧ ReadConfig_data "TP_DIRECTORY= /srv/tmux  " !! "TP_DIRECTORY"
    ≠ Some (Strings.TrimRight " /srv/tmux  ").
Proof. vm_compute. repeat split; discriminate. Qed.

(** ** The directory walk *)

Lemma Tree_nested_ind (P : Tree → Prop) :
  (∀ name kind, P (File name kind)) →
  (∀ name readErr entries, Forall P entries → P (Dir name readErr entries)) →
  (∀ name err, P (NoStat name err)) →
  ∀ t, P t.
Proof.
  intros HF HD HN. fix IH 1. intros [name kind | name readErr entries | name err].
  - apply HF.
  - apply HD. induction entries as [|e es IHes]; constructor; [apply IH | apply IHes].
  - apply HN.
Qed.

Lemma filter_none {A} (P : A → Prop) `{∀ x, Decision (P x)} (l : list A) :
  Forall (λ x, ¬ P x) l → filter P l = [].
Proof.
  induction 1 as [|x l Hx _ IH]; [done |]. by rewrite filter_cons_False.
Qed.

Section WalkEquations.
Context {S : Type} (walkFn : WalkFunc (S := S)).

Lemma walk_File path name kind st :
  walk walkFn path (File name kind) st
  = walkFn path (Some {| Name := name; Mode := ModeFile kind |}) None st.
Proof. reflexivity. Qed.

Lemma walk_NoStat path name err st :
  walk walkFn path (NoStat name err) st = walkFn path None (Some err) st.
Proof. reflexivity. Qed.

Lemma walk_Dir path name readErr entries st :
  walk walkFn path (Dir name readErr entries) st
  = let '(st1, err1) :=
      walkFn path (Some {| Name := name; Mode := ModeDir |}) readErr st in
    match readErr, err1 with
    | None, None => walkNames (walk walkFn) path entries st1
    | _, _ => (st1, err1)
    end.
Proof. reflexivity. Qed.

Lemma walkNames_cons path e entries st :
  walkNames (walk walkFn) path (e :: entries) st
  = let '(st', err) := walk walkFn (path ++ [nameOf e]) e st in
    match err with
    | None => walkNames (walk walkFn) path entries st'
    | Some SkipDir =>
        if match e with File _ _ => false | _ => true end
        then walkNames (walk walkFn) path entries st'
        else (st', err)
    | Some (Failure _) => (st', err)
    end.
Proof. reflexivity. Qed.
End WalkEquations.

Section WalkFacts.
Variable root : string.

Local Abbreviation visit := (ListScripts_visit root).
Local Abbreviation okPath := (Forall (λ name, nameOk name = true)).

Lemma nameOk_spec name : nameOk name = true → PathSeparator ∉ bytes name.
Proof. intros H%bool_decide_eq_true. by apply Split_no_sep_inv. Qed.

(** Below the root the depth that the callback computes is the number of
    names in the path; for the root it is 1, and the path is empty. *)
Lemma depth_path (path : Path) :
  okPath path →
  (3 < length (Strings.Split (Rel path) PathSeparator) ↔ 3 < length path)%nat.
Proof.
  intros Hok. destruct path as [|name path]; [simpl; lia |].
  unfold Rel. change "/" with (String PathSeparator EmptyString).
  rewrite Split_concat; [done | done |].
  eapply Forall_impl; [exact Hok |]. apply nameOk_spec.
Qed.

Lemma visit_entry (path : Path) info scripts :
  okPath path →
  visit path (Some info) None scripts =
    if bool_decide (3 < length path)%nat then
      if IsDir info then (scripts, Some SkipDir) else (scripts, None)
    else if bool_decide (Name info = ".tmux") && negb (IsDir info)
         then ((scripts ++ [Join root path])%list, None)
         else (scripts, None).
Proof.
  intros Hok. unfold ListScripts_visit.
  by rewrite (bool_decide_ext _ _ (depth_path path Hok)).
Qed.

Lemma entriesOf_depth t :
  ∀ path, Forall (λ e, length path ≤ length e.1)%nat (entriesOf path t).
Proof.
  induction t as [name kind | name readErr entries IH | name err] using Tree_nested_ind; intros path; simpl.
  - by repeat constructor.
  - constructor; [done |]. destruct readErr; [by constructor |].
    apply Forall_concat, Forall_fmap.
    eapply Forall_impl; [exact IH |]. intros e He. simpl.
    eapply Forall_impl; [apply He |]. intros [p i]. simpl.
    rewrite length_app. simpl. lia.
  - constructor.
Qed.

Lemma descriptorsOf_deep t (path : Path) :
  (3 < length path)%nat → descriptorsOf root path t = [].
Proof.
  intros Hdeep. unfold descriptorsOf.
  rewrite filter_none; [done |].
  eapply Forall_impl; [apply entriesOf_depth |].
  intros [p i] Hp. simpl in Hp. unfold isDescriptor. simpl.
  rewrite (bool_decide_eq_false_2 (length p ≤ 3)%nat) by lia.
  by rewrite andb_false_r.
Qed.

Lemma descriptorsOf_Dir name (path : Path) entries :
  descriptorsOf root path (Dir name None entries)
  = concat (map (λ e, descriptorsOf root (path ++ [nameOf e]) e) entries).
Proof.
  unfold descriptorsOf. simpl.
  rewrite filter_cons_False
    by (unfold isDescriptor; simpl; by rewrite andb_false_r).
  induction entries as [|e entries IH]; [done |]. simpl.
  by rewrite filter_app, map_app, IH.
Qed.

Lemma descriptorsOf_File name kind (path : Path) :
  descriptorsOf root path (File name kind)
  = if bool_decide (3 < length path)%nat then []
    else if bool_decide (name = ".tmux") then [Join root path] else [].
Proof.
  unfold descriptorsOf. simpl.
  destruct (decide (3 < length path)%nat) as [Hd|Hd].
  - rewrite bool_decide_eq_true_2, filter_cons_False; [done | | done].
    unfold isDescriptor. simpl.
    rewrite (bool_decide_eq_false_2 (length path ≤ 3)%nat) by lia.
    by rewrite andb_false_r.
  - rewrite (bool_decide_eq_false_2 (3 < length path)%nat) by done.
    destruct (decide (name = ".tmux")) as [Hn|Hn].
    + rewrite bool_decide_eq_true_2, filter_cons_True; [done | | done].
      unfold isDescriptor. simpl.
      by rewrite !bool_decide_eq_true_2 by (done || lia).
    + rewrite bool_decide_eq_false_2, filter_cons_False; [done | | done].
      unfold isDescriptor. simpl. by rewrite bool_decide_eq_false_2.
Qed.

Lemma walkNames_ListScripts (path : Path) entries :
  Forall (λ e, ∀ path scripts scripts' r,
            namesOk e = true → okPath path →
            walk visit path e scripts = (scripts', r) →
            walk_result root e path scripts scripts' r) entries →
  okPath path →
  forallb (λ e, nameOk (nameOf e) && namesOk e) entries = true →
  ∀ scripts scripts' r,
    walkNames (walk visit) path entries scripts = (scripts', r) →
    match r with
    | Some (Failure _) => forallb readable entries = false
    | Some SkipDir => False
    | None =>
        scripts' = (scripts ++ concat (map (λ e, descriptorsOf root (path ++ [nameOf e]) e)
                                         entries))%list
    end.
Proof.
  intros IH Hpath. induction IH as [|e entries He _ IH]; intros Hnames scripts scripts' r.
  - intros [= <- <-]. simpl. by rewrite app_nil_r.
  - simpl in Hnames.
    apply andb_true_iff in Hnames as [[Hn Hns]%andb_true_iff Hnames].
    rewrite walkNames_cons.
    destruct (walk visit (path ++ [nameOf e]) e scripts) as [scripts1 r1] eqn:E.
    apply He in E; [| done | by apply Forall_app; split; [|constructor]].
    destruct r1 as [[|err]|]; simpl in E.
    + destruct E as [Hdir ->]. destruct e; try done.
      intros H. apply IH in H; [|done]. destruct r as [[|?]|]; try done.
      * simpl. by rewrite andb_false_iff; right.
      * simpl. by rewrite H, <- app_assoc.
    + intros [= <- <-]. simpl. by rewrite E.
    + subst scripts1. intros H. apply IH in H; [|done]. destruct r as [[|?]|]; try done.
      * simpl. by rewrite andb_false_iff; right.
      * simpl. by rewrite H, <- app_assoc.
Qed.

Lemma walk_ListScripts t :
  ∀ (path : Path) scripts scripts' r,
    namesOk t = true → okPath path →
    walk visit path t scripts = (scripts', r) →
    walk_result root t path scripts scripts' r.
Proof.
  induction t as [name kind | name readErr entries IH | name err] using Tree_nested_ind;
    intros path scripts scripts' r Hnames Hpath.
  - rewrite walk_File, visit_entry by done. unfold walk_result.
    rewrite descriptorsOf_File. simpl.
    case_bool_decide.
    + intros [= <- <-]. by rewrite app_nil_r.
    + rewrite andb_true_r. case_bool_decide; intros [= <- <-]; [done |].
      by rewrite app_nil_r.
  - rewrite walk_Dir. destruct readErr as [err|].
    + simpl. intros [= <- <-]. done.
    + rewrite visit_entry by done. simpl.
      case_bool_decide as Hdeep.
      * intros [= <- <-]. simpl. split; [done |].
        by rewrite descriptorsOf_deep, app_nil_r.
      * rewrite andb_false_r. intros H.
        apply (walkNames_ListScripts path entries IH Hpath Hnames) in H.
        unfold walk_result. rewrite descriptorsOf_Dir.
        destruct r as [[|?]|]; done.
  - rewrite walk_NoStat. intros [= <- <-]. done.
Qed.

(** *** The calls that the walk makes to the callback *)

Lemma visit_error (path : Path) info e scripts :
  visit path info (Some e) scripts = (scripts, Some (Failure e)).
Proof. reflexivity. Qed.

Lemma visit_no_error (path : Path) info scripts :
  ∃ scripts' r, visit path (Some info) None scripts = (scripts', r)
                ∧ ∀ e, r ≠ Some (Failure e).
Proof.
  unfold ListScripts_visit.
  repeat match goal with |- context [if ?b then _ else _] => destruct b end;
    eexists _, _; (split; [reflexivity | done]).
Qed.

Lemma traced_call (path : Path) info err calls scripts scripts' r :
  visit path info err scripts = (scripts', r) →
  traced visit path info err (calls, scripts) = ((calls ++ [(path, err)], scripts'), r).
Proof. intros H. simpl. by rewrite H. Qed.

Lemma walkNames_traced (path : Path) entries :
  Forall (λ e, ∀ path calls scripts, ∃ new scripts' r,
            walk (traced visit) path e (calls, scripts) = ((calls ++ new, scripts'), r)
            ∧ walk visit path e scripts = (scripts', r)
            ∧ calls_result new r) entries →
  ∀ calls scripts, ∃ new scripts' r,
    walkNames (walk (traced visit)) path entries (calls, scripts)
    = ((calls ++ new, scripts'), r)
    ∧ walkNames (walk visit) path entries scripts = (scripts', r)
    ∧ calls_result new r.
Proof.
  induction 1 as [|e entries He _ IH]; intros calls scripts.
  - exists [], scripts, None. rewrite app_nil_r. repeat split. constructor.
  - rewrite !walkNames_cons.
    destruct (He (path ++ [nameOf e]) calls scripts) as (new1 & scripts1 & r1 & -> & -> & H1).
    assert (Hnext : ∀ r, r = None ∨ r = Some SkipDir → calls_result new1 r →
              ∃ new scripts' r',
                walkNames (walk (traced visit)) path entries (calls ++ new1, scripts1)
                = ((calls ++ new, scripts'), r')
                ∧ walkNames (walk visit) path entries scripts1 = (scripts', r')
                ∧ calls_result new r').
    { intros r0 Hr0 Hclean.
      destruct (IH (calls ++ new1) scripts1) as (new2 & scripts2 & r2 & -> & -> & H2).
      exists (new1 ++ new2), scripts2, r2. rewrite app_assoc. repeat split.
      assert (Hc : Forall (λ c : Path * option error, c.2 = None) new1)
        by (by destruct Hr0 as [-> | ->]).
      destruct r2 as [[|e2]|]; simpl in *.
      - by apply Forall_app.
      - destruct H2 as (pre & p & -> & Hpre).
        exists (new1 ++ pre), p. rewrite app_assoc. split; [done | by apply Forall_app].
      - by apply Forall_app. }
    destruct r1 as [[|e1]|].
    + destruct e; [| by apply (Hnext (Some SkipDir)); auto ..].
      by exists new1, scripts1, (Some SkipDir).
    + by exists new1, scripts1, (Some (Failure e1)).
    + by apply (Hnext None); auto.
Qed.

Lemma walk_traced t :
  ∀ (path : Path) calls scripts, ∃ new scripts' r,
    walk (traced visit) path t (calls, scripts) = ((calls ++ new, scripts'), r)
    ∧ walk visit path t scripts = (scripts', r)
    ∧ calls_result new r.
Proof.
  induction t as [name kind | name readErr entries IH | name err] using Tree_nested_ind;
    intros path calls scripts.
  - rewrite !walk_File.
    destruct (visit_no_error path {| Name := name; Mode := ModeFile kind |} scripts)
      as (scripts' & r & E & Hr).
    exists [(path, None)], scripts', r. rewrite (traced_call _ _ _ _ _ _ _ E).
    repeat split; [done |]. destruct r as [[|e]|]; repeat constructor. by destruct (Hr e).
  - rewrite !walk_Dir. destruct readErr as [err|].
    + rewrite (traced_call _ _ _ _ _ _ _ (visit_error _ _ _ _)), visit_error.
      exists [(path, Some err)], scripts, (Some (Failure err)). repeat split.
      exists [], path. split; [done | constructor].
    + destruct (visit_no_error path {| Name := name; Mode := ModeDir |} scripts)
        as (scripts1 & r1 & E & Hr).
      rewrite (traced_call _ _ _ _ _ _ _ E), E.
      destruct r1 as [[|e]|]; [| by destruct (Hr e) |].
      * exists [(path, None)], scripts1, (Some SkipDir). repeat split. repeat constructor.
      * destruct (walkNames_traced path entries IH (calls ++ [(path, None)]) scripts1)
          as (new & scripts' & r & -> & -> & H).
        exists ((path, None) :: new), scripts', r.
        rewrite <- app_assoc. repeat split.
        destruct r as [[|e]|]; simpl in *; [by constructor | | by constructor].
        destruct H as (pre & p & -> & Hpre).
        exists ((path, None) :: pre), p. split; [done | by constructor].
  - rewrite !walk_NoStat.
    rewrite (traced_call _ _ _ _ _ _ _ (visit_error _ _ _ _)), visit_error.
    exists [(path, Some err)], scripts, (Some (Failure err)). repeat split.
    exists [], path. split; [done | constructor].
Qed.
End WalkFacts.




(** ** The session construction protocol *)

Section SessionFacts.
Variable w : World.
Implicit Types (session : TmuxSession) (steps : list (Step * list string)).

Lemma runSteps_app steps1 steps2 log :
  runSteps w (steps1 ++ steps2) log
  = match runSteps w steps1 log with
    | (log', Return None) => runSteps w steps2 log'
    | r => r
    end.
Proof.
  revert log. induction steps1 as [|[step argv] steps1 IH]; intros log; simpl; [done |].
  destruct (Tmux w log argv); [done | apply IH].
Qed.

(** The loops of [createSession] run their steps up to the first failure. *)
Lemma sendCommands_steps session i commands log :
  sendCommands w (targetWindow session i) i commands log
  = runSteps w (map (λ cmdStr, (StepCommand i, sendKeysCmd session i cmdStr)) commands) log.
Proof.
  revert log. induction commands as [|cmdStr commands IH]; intros log; simpl; [done |].
  unfold bind, tmux, sendKeysCmd. simpl.
  destruct (Tmux w log _); [done | apply IH].
Qed.

Lemma createWindows_steps session basePath i windows log :
  createWindows w session basePath i windows log
  = runSteps w (concat (imap (λ j, windowSteps session basePath (i + j)) windows)) log.
Proof.
  revert i log. induction windows as [|window windows IH]; intros i log; [done |].
  rewrite imap_cons, Nat.add_0_r, concat_cons.
  rewrite (imap_ext _ (λ j, windowSteps session basePath (S i + j)))
    by (intros j x _; simpl; f_equal; lia).
  unfold windowSteps at 1.
  rewrite <- app_comm_cons, <- app_comm_cons. cbn [createWindows runSteps].
  unfold windowCmd, bind at 1.
  assert (Hop : ∀ args log, tmux w args log
            = (log ++ [Exec ("tmux" :: args)], Return (Tmux w log ("tmux" :: args))))
    by done.
  destruct (bool_decide (i = 0)); rewrite Hop;
    (destruct (Tmux w log _); [done |]);
    (unfold bind at 1; rewrite Hop; fold (sendKeysCmd session i ("cd " +:+ basePath));
     destruct (Tmux w _ (sendKeysCmd _ _ _)); [done |]);
    (unfold bind; rewrite sendCommands_steps, runSteps_app;
     destruct (runSteps w _ _) as [log' [[e|]|code]]; [done | | done]);
    apply IH.
Qed.

Lemma createSession_steps session basePath log :
  createSession w session basePath log = runSteps w (sessionSteps session basePath) log.
Proof.
  unfold createSession, sessionSteps, bind, tmux, newSessionCmd. simpl.
  destruct (Tmux w log _); [done |]. by rewrite createWindows_steps.
Qed.

(** What a run of steps logs and returns: the steps up to the first one
    that fails are issued and none after it; nothing else happens. *)
Lemma runSteps_result steps log :
  ∃ issued rest err,
    steps = issued ++ rest
    ∧ runSteps w steps log = (log ++ map (λ s, Exec s.2) issued, Return err)
    ∧ match err with
      | None => rest = []
      | Some e =>
          ∃ pre step argv e0,
            issued = pre ++ [(step, argv)]
            ∧ Tmux w (log ++ map (λ s, Exec s.2) pre) argv = Some e0
            ∧ e = stepError step e0
      end.
Proof.
  revert log. induction steps as [|[step argv] steps IH]; intros log.
  - exists [], [], None. simpl. by rewrite app_nil_r.
  - simpl. destruct (Tmux w log argv) as [e0|] eqn:E.
    + exists [(step, argv)], steps, (Some (stepError step e0)).
      repeat split. exists [], step, argv, e0. simpl. by rewrite app_nil_r.
    + destruct (IH (log ++ [Exec argv])) as (issued & rest & err & -> & -> & H).
      exists ((step, argv) :: issued), rest, err. simpl.
      rewrite <- app_assoc. repeat split.
      destruct err as [e|]; [|done].
      destruct H as (pre & step' & argv' & e0 & -> & Hfail & ->).
      exists ((step, argv) :: pre), step', argv', e0. simpl.
      by rewrite <- app_assoc in Hfail.
Qed.

Lemma runSteps_all_succeed steps log :
  (∀ log' argv, argv ∈ map snd steps → Tmux w log' argv = None) →
  runSteps w steps log = (log ++ map (λ s, Exec s.2) steps, Return None).
Proof.
  revert log. induction steps as [|[step argv] steps IH]; intros log Hok; simpl.
  - by rewrite app_nil_r.
  - rewrite Hok by left. rewrite IH, <- app_assoc; [done |].
    intros log' argv' Hin. apply Hok. by right.
Qed.
End SessionFacts.

(** Two window positions have different targets. *)
Lemma targetWindow_inj (session : TmuxSession) (i j : nat) :
  targetWindow session i = targetWindow session j → i = j.
Proof.
  unfold targetWindow. intros H.
  apply (inj (String.app _)), (inj (String.app _)) in H. by apply (inj pretty) in H.
Qed.


(** ** Logs of multiplexer commands *)

Section LogFacts.
Lemma tmuxCmds_app log1 log2 : tmuxCmds (log1 ++ log2) = tmuxCmds log1 ++ tmuxCmds log2.
Proof. apply omap_app. Qed.

Lemma tmuxCmds_steps (steps : list (Step * list string)) :
  tmuxCmds (map (λ s, Exec s.2) steps) = map snd steps.
Proof. induction steps as [|[step argv] steps IH]; simpl; [done | by f_equal]. Qed.

Lemma map_Exec_steps (steps : list (Step * list string)) :
  map (λ s, Exec s.2) steps = map Exec (map snd steps).
Proof. by rewrite map_map. Qed.

Lemma length_filter_concat_imap {A B} (P : B → Prop) `{∀ x, Decision (P x)}
    (f : nat → A → list B) (g : A → nat) (l : list A) :
  (∀ i x, length (filter P (f i x)) = g x) →
  length (filter P (concat (imap f l))) = sum_list_with g l.
Proof.
  revert f. induction l as [|x l IH]; intros f Hf; [done |].
  rewrite imap_cons, concat_cons, filter_app, length_app, Hf. simpl.
  f_equal. apply IH. intros i y. apply Hf.
Qed.

Lemma map_concat_imap {A B C} (h : B → C) (f : nat → A → list B) (l : list A) :
  map h (concat (imap f l)) = concat (imap (λ i x, map h (f i x)) l).
Proof.
  revert f. induction l as [|x l IH]; intros f; [done |].
  rewrite !imap_cons, !concat_cons, map_app. f_equal. apply IH.
Qed.

Lemma sum_list_with_one {A} (l : list A) : sum_list_with (λ _, 1) l = length l.
Proof. induction l; simpl; lia. Qed.

Lemma sum_list_with_succ {A} (g : A → nat) (l : list A) :
  sum_list_with (λ x, S (g x)) l = length l + sum_list_with g l.
Proof. induction l; simpl; lia. Qed.

Lemma filter_map_none {A B} (P : B → Prop) `{∀ x, Decision (P x)} (f : A → B) (l : list A) :
  (∀ x, ¬ P (f x)) → filter P (map f l) = [].
Proof.
  intros Hf. apply filter_none, Forall_fmap, Forall_forall. intros x _. apply Hf.
Qed.
End LogFacts.

Section ProtocolFacts.
Variable w : World.
Implicit Types (session : TmuxSession) (log : list Event).

Lemma sessionCmds_windows session basePath :
  sessionCmds session basePath
  = newSessionCmd session
    :: concat (imap (λ i window,
                       windowCmd session i window
                       :: sendKeysCmd session i ("cd " +:+ basePath)
                       :: map (sendKeysCmd session i) (Commands window))
                 (Windows session)).
Proof.
  unfold sessionCmds, sessionSteps. simpl. f_equal.
  rewrite map_concat_imap. f_equal. apply imap_ext. intros i window _.
  unfold windowSteps. simpl. by rewrite map_map.
Qed.

Lemma count_window_ops session basePath :
  length (filter (λ argv, isWindowOp argv = true) (sessionCmds session basePath))
  = length (Windows session).
Proof.
  rewrite sessionCmds_windows, filter_cons_False by done.
  rewrite (length_filter_concat_imap _ _ (λ _, 1)); [apply sum_list_with_one |].
  intros i window. rewrite filter_cons_True by (unfold windowCmd; by case_bool_decide).
  rewrite filter_cons_False by done.
  by rewrite filter_map_none.
Qed.

Lemma count_send_keys session i text commands :
  length (filter (λ argv, isSendKeys text argv = true) (map (sendKeysCmd session i) commands))
  = length (filter (λ cmdStr, cmdStr = text) commands).
Proof.
  induction commands as [|cmdStr commands IH]; [done |]. simpl.
  destruct (decide (cmdStr = text)) as [->|Hne].
  - rewrite !filter_cons_True; [simpl; by rewrite IH | done |].
    unfold isSendKeys. simpl. by rewrite !bool_decide_eq_true_2.
  - rewrite !filter_cons_False; [done | done |].
    unfold isSendKeys. simpl.
    rewrite (bool_decide_eq_false_2 (Some cmdStr = Some text)) by congruence.
    by rewrite ?andb_false_r.
Qed.

Lemma count_cd session basePath :
  length (filter (λ argv, isSendKeys ("cd " +:+ basePath) argv = true)
            (sessionCmds session basePath))
  = length (Windows session) + typedByUser ("cd " +:+ basePath) session.
Proof.
  rewrite sessionCmds_windows, filter_cons_False by done.
  unfold typedByUser. rewrite <- sum_list_with_succ.
  apply length_filter_concat_imap. intros i window.
  rewrite filter_cons_False by (unfold windowCmd; by case_bool_decide).
  rewrite filter_cons_True.
  - simpl. by rewrite count_send_keys.
  - unfold isSendKeys. simpl. by rewrite !bool_decide_eq_true_2.
Qed.

Lemma attachSession_result name log :
  attachSession w name log
  = (log ++ [Stdout ("Attempting to attach to session: " +:+ name);
             ExecAttached ["TERM=xterm-256color"] (attachCmd name)],
     Return (Errorf "failed to attach to session"
               <$> Tmux w (log ++ [Stdout ("Attempting to attach to session: " +:+ name)])
                     (attachCmd name))).
Proof.
  unfold attachSession, bind, emit, attachCmd. rewrite <- app_assoc. simpl.
  by destruct (Tmux w _ _).
Qed.

Lemma sessionExists_result name log :
  sessionExists w name log
  = (log ++ [Exec (hasSessionCmd name)],
     Return (bool_decide (Tmux w log (hasSessionCmd name) = None))).
Proof. reflexivity. Qed.

(** The two branches of the end of [main]. *)
Lemma materialize_exists session basePath log :
  Tmux w log (hasSessionCmd (SessionName session)) = None →
  ∃ said,
    materialize w session basePath log
    = (log ++ [Exec (hasSessionCmd (SessionName session));
               Stdout ("Session " +:+ SessionName session
                      +:+ " already exists. Attaching to it.");
               Stdout ("Attempting to attach to session: " +:+ SessionName session);
               ExecAttached ["TERM=xterm-256color"] (attachCmd (SessionName session))]
           ++ said,
       Return ())
    ∧ tmuxCmds said = [] ∧ Forall (λ ev, isFzf ev = false) said.
Proof.
  intros Hex. unfold materialize, bind at 1. rewrite sessionExists_result, Hex.
  rewrite bool_decide_eq_true_2 by done.
  unfold bind at 1, emit at 1. unfold bind at 1. rewrite attachSession_result.
  destruct (Tmux w _ (attachCmd _)) as [e|]; simpl.
  - exists [Stdout ("Error attaching to session: "
                   +:+ Errorf "failed to attach to session" e)].
    unfold emit. rewrite <- !app_assoc. repeat split. by repeat constructor.
  - exists []. unfold ret. rewrite <- !app_assoc. repeat split. constructor.
Qed.

Lemma materialize_absent session basePath log e :
  Tmux w log (hasSessionCmd (SessionName session)) = Some e →
  materialize w session basePath log
  = match createSession w session basePath
            (log ++ [Exec (hasSessionCmd (SessionName session))]) with
    | (log1, Return (Some e1)) =>
        (log1 ++ [Stdout ("Error creating session: " +:+ e1)], Exit 1)
    | (log1, Return None) =>
        match attachSession w (SessionName session) log1 with
        | (log2, Return (Some e2)) =>
            (log2 ++ [Stdout ("Error attaching to session: " +:+ e2)], Exit 1)
        | (log2, Return None) => (log2, Return ())
        | (log2, Exit code) => (log2, Exit code)
        end
    | (log1, Exit code) => (log1, Exit code)
    end.
Proof.
  intros Hex. unfold materialize, bind at 1. rewrite sessionExists_result, Hex.
  rewrite bool_decide_eq_false_2 by done.
  unfold bind at 1.
  destruct (createSession w session basePath _) as [log1 [[e1|]|code]]; [done | | done].
  unfold bind at 1.
  by destruct (attachSession w (SessionName session) log1) as [log2 [[e2|]|code]].
Qed.
End ProtocolFacts.

(** ** The claims about the session construction protocol *)

(** C2: the scenario of the specification.  For the descriptor [scenario]
    and the base path [/proj], when the existence check fails and the
    commands that build the session succeed, the multiplexer commands are,
    in this order: [has-session], [new-session -d -s s], [rename-window] of
    [s:0] to [w1], [send-keys] of [cd /proj] and of [echo hi] to [s:0], each
    with the [C-m] keypress, and [attach-session]. *)
Theorem scenario_command_sequence (w : World) (log : list Event) (e : error) :
  Tmux w log (hasSessionCmd "s") = Some e →
  (∀ log' argv, argv ∈ sessionCmds scenario "/proj" → Tmux w log' argv = None) →
  tmuxCmds (materialize w scenario "/proj" log).1
  = tmuxCmds log
    ++ [ ["tmux"; "has-session"; "-t"; "s"];
         ["tmux"; "new-session"; "-d"; "-s"; "s"];
         ["tmux"; "rename-window"; "-t"; "s:0"; "w1"];
         ["tmux"; "send-keys"; "-t"; "s:0"; "cd /proj"; "C-m"];
         ["tmux"; "send-keys"; "-t"; "s:0"; "echo hi"; "C-m"];
         ["tmux"; "attach-session"; "-t"; "s"] ].
Proof.
  intros Habsent Hok.
  rewrite (materialize_absent w scenario "/proj" log e Habsent).
  rewrite createSession_steps, runSteps_all_succeed by exact Hok.
  rewrite attachSession_result.
  destruct (Tmux w _ (attachCmd _)); simpl;
    rewrite ?tmuxCmds_app; simpl; rewrite ?app_nil_r, <- ?app_assoc; done.
Qed.

Lemma scenario_command_sequence_witness :
  tmuxCmds (materialize (exampleWorld scenarioTree scenario (muxFailing [hasSessionCmd "s"]))
              scenario "/proj" []).1
  = [ ["tmux"; "has-session"; "-t"; "s"];
      ["tmux"; "new-session"; "-d"; "-s"; "s"];
      ["tmux"; "rename-window"; "-t"; "s:0"; "w1"];
      ["tmux"; "send-keys"; "-t"; "s:0"; "cd /proj"; "C-m"];
      ["tmux"; "send-keys"; "-t"; "s:0"; "echo hi"; "C-m"];
      ["tmux"; "attach-session"; "-t"; "s"] ].
Proof.
  refine (scenario_command_sequence
            (exampleWorld scenarioTree scenario (muxFailing [hasSessionCmd "s"]))
            [] "exit status 1" eq_refl _).
  intros log' argv Hin. apply list_elem_of_In in Hin. simpl in Hin.
  destruct Hin as [<- | [<- | [<- | [<- | []]]]]; reflexivity.
Defined.

(** C3, as the code has it: one change of directory per window, so [N] of
    them and not [N + 1].  When [createSession] succeeds on a descriptor
    with [N] windows, the commands it has issued are [new-session] and then,
    window by window in the order of the descriptor, the renaming (index 0)
    or the creation (every other index) of the window, the [cd basePath]
    typed into it, and its commands in order.  So [N] commands rename or
    create a window, and [cd basePath] is typed [N] times, plus once for
    each command of the descriptor that is [cd basePath] itself. *)
Theorem createSession_commands_per_window
    (w : World) (session : TmuxSession) (basePath : string) (log log' : list Event) :
  createSession w session basePath log = (log', Return None) →
  log' = log ++ map Exec (sessionCmds session basePath)
  ∧ sessionCmds session basePath
    = newSessionCmd session
      :: concat (imap (λ i window,
                         (if bool_decide (i = 0)
                          then ["tmux"; "rename-window"; "-t"; targetWindow session i;
                                WindowName window]
                          else ["tmux"; "new-window"; "-t"; SessionName session; "-n";
                                WindowName window])
                         :: ["tmux"; "send-keys"; "-t"; targetWindow session i;
                             "cd " +:+ basePath; "C-m"]
                         :: map (λ cmdStr, ["tmux"; "send-keys"; "-t"; targetWindow session i;
                                            cmdStr; "C-m"])
                              (Commands window))
                   (Windows session))
  ∧ length (filter (λ argv, isWindowOp argv = true) (sessionCmds session basePath))
    = length (Windows session)
  ∧ length (filter (λ argv, isSendKeys ("cd " +:+ basePath) argv = true)
              (sessionCmds session basePath))
    = length (Windows session) + typedByUser ("cd " +:+ basePath) session.
Proof.
  intros Hrun. rewrite createSession_steps in Hrun.
  destruct (runSteps_result w (sessionSteps session basePath) log)
    as (issued & rest & err & Hsteps & Hlog & Herr).
  rewrite Hrun in Hlog. injection Hlog as -> <-. subst rest.
  rewrite app_nil_r in Hsteps. subst issued.
  split; [by rewrite map_Exec_steps |].
  split; [apply sessionCmds_windows |].
  split; [apply count_window_ops | apply count_cd].
Qed.

Lemma createSession_commands_per_window_witness :
  length (filter (λ argv, isSendKeys "cd /proj" argv = true) (sessionCmds threeWindows "/proj"))
  = 3 + typedByUser "cd /proj" threeWindows.
Proof.
  refine (proj2 (proj2 (proj2 (createSession_commands_per_window
            (exampleWorld scenarioTree threeWindows (muxFailing []))
            threeWindows "/proj" [] _ eq_refl)))).
Defined.

(** C3, as the specification words it: the scenario has one window, and
    [cd /proj] is typed once, not twice. *)
Lemma scenario_has_one_cd :
  let run := createSession (exampleWorld scenarioTree scenario (muxFailing []))
               scenario "/proj" [] in
  run.2 = Return None
  ∧ length (filter (λ argv, isSendKeys "cd /proj" argv = true) (tmuxCmds run.1)) = 1
  ∧ length (filter (λ argv, isSendKeys "cd /proj" argv = true) (tmuxCmds run.1))
    ≠ length (Windows scenario) + 1.
Proof. vm_compute. repeat split. discriminate. Qed.

(** C4, as the code has it: no base index is tracked, the index in a target
    is the position of the window, which is right for base 0 only.  The
    commands of [createSession] are, in this order, [new-session] and then
    for each window position [i] of the descriptor the [rename-window]
    (position 0) or [new-window] (any other position, naming the session
    only), the [send-keys] of the [cd] and the [send-keys] of each command
    of that window, where the target of the [rename-window] and of every
    [send-keys] of position [i] is the session name, a colon and [0 + i].
    Every run issues these commands from the first one on: all of them when
    it returns no error, and otherwise up to the one that fails.  The
    targets of two positions differ, and the target of a position is the
    one for a base index [base] only when [base] is 0. *)
Theorem targets_are_window_positions
    (w : World) (session : TmuxSession) (basePath : string) (log : list Event) :
  let target := specTarget 0 session in
  let plan :=
    ["tmux"; "new-session"; "-d"; "-s"; SessionName session]
    :: concat (imap (λ i window,
                 (if bool_decide (i = 0)
                  then ["tmux"; "rename-window"; "-t"; target i; WindowName window]
                  else ["tmux"; "new-window"; "-t"; SessionName session; "-n";
                        WindowName window])
                 :: ["tmux"; "send-keys"; "-t"; target i; "cd " +:+ basePath; "C-m"]
                 :: map (λ cmdStr, ["tmux"; "send-keys"; "-t"; target i; cmdStr; "C-m"])
                      (Commands window))
               (Windows session)) in
  (∃ issued rest err,
     plan = issued ++ rest
     ∧ createSession w session basePath log = (log ++ map Exec issued, Return err)
     ∧ match err with
       | None => rest = []
       | Some _ =>
           ∃ pre argv e0,
             issued = pre ++ [argv] ∧ Tmux w (log ++ map Exec pre) argv = Some e0
       end)
  ∧ (∀ i j, target i = target j → i = j)
  ∧ (∀ base i, specTarget base session i = target i → base = 0).
Proof.
  intros target plan.
  assert (Hplan : plan = sessionCmds session basePath)
    by (rewrite sessionCmds_windows; reflexivity).
  split; [|split].
  - rewrite createSession_steps.
    destruct (runSteps_result w (sessionSteps session basePath) log)
      as (issued & rest & err & Hsteps & -> & Herr).
    exists (map snd issued), (map snd rest), err. split; [|split].
    + rewrite Hplan. unfold sessionCmds. by rewrite Hsteps, map_app.
    + by rewrite map_Exec_steps.
    + destruct err as [e|]; [|by subst rest].
      destruct Herr as (pre & step & argv & e0 & -> & Hfail & _).
      exists (map snd pre), argv, e0. rewrite map_app. split; [done |].
      by rewrite <- map_Exec_steps.
  - intros i j. apply targetWindow_inj.
  - intros base i H. apply (targetWindow_inj session (base + i) i) in H. lia.
Qed.

(** C4, as the specification words it: on a multiplexer whose base index is
    1, the window at position 0 is addressed as [s:0] and not as [s:1]. *)
Lemma first_window_target_ignores_base :
  tmuxCmds (createSession (exampleWorld scenarioTree scenario (muxFailing []))
              scenario "/proj" []).1 !! 1
  = Some ["tmux"; "rename-window"; "-t"; "s:0"; "w1"]
  ∧ specTarget 1 scenario 0 = "s:1"
  ∧ targetWindow scenario 0 ≠ specTarget 1 scenario 0.
Proof. vm_compute. repeat split. discriminate. Qed.

(** C6: when the existence check succeeds, the commands of the run are the
    check and the attach, and the process does not exit with an error; and
    whatever error the check ends with, an exit status or a failure to run
    the multiplexer at all, the session is taken not to exist: the next
    command is [new-session]. *)
Theorem existing_session_is_only_attached
    (w : World) (session : TmuxSession) (basePath : string) (log : list Event) :
  match Tmux w log (hasSessionCmd (SessionName session)) with
  | None =>
      tmuxCmds (materialize w session basePath log).1
      = tmuxCmds log ++ [hasSessionCmd (SessionName session); attachCmd (SessionName session)]
      ∧ (materialize w session basePath log).2 = Return ()
  | Some e =>
      (sessionExists w (SessionName session) log).2 = Return false
      ∧ ∃ rest out,
          materialize w session basePath log
          = (log ++ Exec (hasSessionCmd (SessionName session))
               :: Exec (newSessionCmd session) :: rest, out)
  end.
Proof.
  destruct (Tmux w log (hasSessionCmd (SessionName session))) as [e|] eqn:Hcheck.
  - split; [by rewrite sessionExists_result, Hcheck |].
    rewrite (materialize_absent w session basePath log e Hcheck).
    rewrite createSession_steps. unfold sessionSteps. cbn [runSteps].
    destruct (Tmux w _ (newSessionCmd session)) as [e1|].
    { eexists _, _. rewrite <- !app_assoc. reflexivity. }
    destruct (runSteps_result w (concat (imap (windowSteps session basePath) (Windows session)))
                ((log ++ [Exec (hasSessionCmd (SessionName session))])
                 ++ [Exec (newSessionCmd session)]))
      as (issued & rest & err & _ & -> & _).
    destruct err as [e1|].
    { eexists _, _. rewrite <- !app_assoc. reflexivity. }
    rewrite attachSession_result.
    destruct (Tmux w _ (attachCmd _)); simpl;
      eexists _, _; rewrite <- !app_assoc; reflexivity.
  - destruct (materialize_exists w session basePath log Hcheck) as (said & -> & Hsaid & _).
    split; [|done]. cbn [fst]. by rewrite !tmuxCmds_app, Hsaid, app_nil_r.
Qed.

(** C7: the failing input.  The creation of the third window (index 2)
    fails: the commands stop there and nothing is undone, but the error is
    the one that the renaming of the first window (index 0) gives as well;
    it does not tell which window failed.  The errors of [send-keys] do. *)
Theorem window_failure_has_no_index :
  let logs := {| WindowName := "logs"; Commands := [] |} in
  let edit := {| WindowName := "edit"; Commands := ["vim"] |} in
  let world failing := exampleWorld scenarioTree threeWindows (muxFailing failing) in
  createSession (world [windowCmd threeWindows 2 logs]) threeWindows "/proj" []
  = (map Exec (take 9 (sessionCmds threeWindows "/proj")),
     Return (Some "failed to create window: exit status 1"))
  ∧ createSession (world [windowCmd threeWindows 0 edit]) threeWindows "/proj" []
    = (map Exec (take 2 (sessionCmds threeWindows "/proj")),
       Return (Some "failed to create window: exit status 1"))
  ∧ createSession (world [sendKeysCmd threeWindows 1 "make"]) threeWindows "/proj" []
    = (map Exec (take 7 (sessionCmds threeWindows "/proj")),
       Return (Some "failed to send command to window 1: exit status 1")).
Proof. vm_compute. repeat split. Qed.

(** ** Failures of [createSession] and exit statuses *)

(** X8.  When [createSession] fails, the command that failed is the last one it
    has issued: the steps after it are not run and nothing is undone.  The
    error names the window for a [send-keys] step only. *)
Lemma createSession_failure
    (w : World) (session : TmuxSession) (basePath : string) (log log' : list Event) (e : error) :
  createSession w session basePath log = (log', Return (Some e)) →
  ∃ pre step argv rest e0,
    sessionSteps session basePath = pre ++ (step, argv) :: rest
    ∧ log' = log ++ map Exec (map snd pre) ++ [Exec argv]
    ∧ Tmux w (log ++ map Exec (map snd pre)) argv = Some e0
    ∧ e = stepError step e0.
Proof.
  rewrite createSession_steps. intros Hrun.
  destruct (runSteps_result w (sessionSteps session basePath) log)
    as (issued & rest & err & Hsteps & Hlog & Herr).
  rewrite Hrun in Hlog. injection Hlog as -> <-.
  destruct Herr as (pre & step & argv & e0 & -> & Hfail & ->).
  exists pre, step, argv, rest, e0. rewrite <- map_Exec_steps.
  rewrite Hsteps, <- app_assoc, map_app. done.
Qed.

Lemma materialize_outcome (w : World) (session : TmuxSession) (basePath : string)
    (log : list Event) :
  zeroOrOne (materialize w session basePath log).2.
Proof.
  destruct (Tmux w log (hasSessionCmd (SessionName session))) as [e|] eqn:Hcheck.
  - rewrite (materialize_absent w session basePath log e Hcheck), createSession_steps.
    destruct (runSteps_result w (sessionSteps session basePath)
                (log ++ [Exec (hasSessionCmd (SessionName session))]))
      as (issued & rest & err & _ & -> & _).
    destruct err; [by right |]. rewrite attachSession_result.
    destruct (Tmux w _ (attachCmd _)); simpl; [by right | by left].
  - destruct (materialize_exists w session basePath log Hcheck) as (said & -> & _). by left.
Qed.

(** [main] ends with status 0 or 1. *)
Lemma main_outcome (w : World) (log : list Event) :
  zeroOrOne (main w log).2.
Proof.
  unfold main. case_bool_decide.
  { unfold bind, initTmuxConfig.
    destruct (MarshalIndent w minimalConfig); [by right |].
    unfold bind, emit. destruct (WriteFileErr w _); [by right | by left]. }
  destruct (ReadConfig _ _) as [e|config]; [by right |].
  destruct (config !! "TP_DIRECTORY") as [root|]; [|by right].
  destruct (validDirectory w root); [|by right]. simpl.
  unfold main_root.
  destruct (ListScripts root (Lstat w root)) as [scripts [e|]]; [by right |].
  case_bool_decide; [by right |].
  unfold bind at 1, SelectScriptWithFzf.
  destruct (StdinPipe w); [by right |].
  unfold bind at 1, emit at 1.
  destruct (Picker w scripts); [by right |]. unfold ret at 1.
  destruct (ReadSessionConfig w _); [by right |].
  apply materialize_outcome.
Qed.

(** ** The claims about the whole run *)

Ltac no_fzf :=
  repeat match goal with
    | |- Forall _ (_ ++ _) => apply Forall_app; split
    | |- Forall _ (_ :: _) => apply Forall_cons; split
    | |- Forall _ [] => constructor
    | |- isFzf _ = false => reflexivity
    | |- _ => assumption
    end.

Section MainFacts.
Variable w : World.

Lemma main_reaches_root root log :
  reachesRoot w root → main w log = main_root w root log.
Proof.
  intros (Hargs & config & Hconfig & Hroot & Hdir). unfold main.
  rewrite bool_decide_eq_false_2 by done. by rewrite Hconfig, Hroot, Hdir.
Qed.

Lemma main_root_listing_error root scripts e log :
  ListScripts root (Lstat w root) = (scripts, Some e) →
  main_root w root log = (log ++ [Stdout ("Error listing scripts: " +:+ e)], Exit 1).
Proof. intros H. unfold main_root. by rewrite H. Qed.

Lemma main_root_no_scripts root log :
  ListScripts root (Lstat w root) = ([], None) →
  main_root w root log = (log ++ [Stdout "No .tmux scripts found."], Exit 1).
Proof. intros H. unfold main_root. by rewrite H. Qed.

(** The end of [main] starts no picker. *)
Lemma materialize_no_fzf session basePath log :
  ∃ new out,
    materialize w session basePath log = (log ++ new, out)
    ∧ Forall (λ ev, isFzf ev = false) new.
Proof.
  destruct (Tmux w log (hasSessionCmd (SessionName session))) as [e|] eqn:Hcheck.
  - rewrite (materialize_absent w session basePath log e Hcheck).
    rewrite createSession_steps.
    destruct (runSteps_result w (sessionSteps session basePath)
                (log ++ [Exec (hasSessionCmd (SessionName session))]))
      as (issued & rest & err & _ & -> & _).
    assert (Hissued : Forall (λ ev, isFzf ev = false) (map (λ s, Exec s.2) issued))
      by (apply Forall_fmap, Forall_true; done).
    destruct err as [e1|].
    { eexists _, _. rewrite <- !app_assoc. split; [reflexivity | no_fzf]. }
    rewrite attachSession_result.
    destruct (Tmux w _ (attachCmd _)); simpl;
      eexists _, _; rewrite <- !app_assoc; (split; [reflexivity | no_fzf]).
  - destruct (materialize_exists w session basePath log Hcheck) as (said & -> & _ & Hsaid).
    eexists _, _. split; [reflexivity | no_fzf].
Qed.

(** Whatever [main] does from the root on, the picker is started at most
    once, with the scripts found, and these are not none. *)
Lemma main_root_fzf root log :
  ∃ new out,
    main_root w root log = (log ++ new, out)
    ∧ ∀ lines, Fzf lines ∈ new →
               lines ≠ [] ∧ ListScripts root (Lstat w root) = (lines, None).
Proof.
  unfold main_root.
  destruct (ListScripts root (Lstat w root)) as [scripts [e|]].
  { eexists _, _. split; [reflexivity |]. intros lines Hin.
    apply list_elem_of_singleton in Hin. discriminate. }
  case_bool_decide as Hlen.
  { eexists _, _. split; [reflexivity |]. intros lines Hin.
    apply list_elem_of_singleton in Hin. discriminate. }
  assert (Hscripts : scripts ≠ []) by (by destruct scripts).
  unfold bind at 1, SelectScriptWithFzf.
  destruct (StdinPipe w) as [e|].
  { eexists _, _. split; [reflexivity |]. intros lines Hin.
    apply list_elem_of_singleton in Hin. discriminate. }
  unfold bind at 1, emit at 1.
  assert (Hone : ∀ line lines, Fzf lines ∈ [Fzf scripts; Stdout line] →
            lines ≠ [] ∧ (scripts, @None error) = (lines, None)).
  { intros line lines Hin. apply elem_of_cons in Hin as [[= ->] | Hin]; [done |].
    apply list_elem_of_singleton in Hin. discriminate. }
  destruct (Picker w scripts) as [e|output].
  { eexists _, _. unfold ret, bind, emit, os_Exit. rewrite <- app_assoc.
    split; [reflexivity | apply Hone]. }
  unfold ret at 1.
  destruct (ReadSessionConfig w (Strings.TrimSpace output)) as [e|sessionConfig].
  { eexists _, _. unfold ret, bind, emit, os_Exit. rewrite <- app_assoc.
    split; [reflexivity | apply Hone]. }
  destruct (materialize_no_fzf sessionConfig (Dir_ w (Strings.TrimSpace output))
              (log ++ [Fzf scripts])) as (new & out & -> & Hnew).
  exists (Fzf scripts :: new), out. rewrite <- app_assoc. split; [done |].
  intros lines Hin. apply elem_of_cons in Hin as [[= ->] | Hin]; [done |].
  rewrite Forall_forall in Hnew. by apply Hnew in Hin.
Qed.
End MainFacts.

(** C8: in a run that gets to the search, when the search returns no
    candidate, [main] prints that no script was found and exits with status
    1 without starting the picker; and whatever the run, a picker that is
    started is fed the scripts found, which are not none. *)
Theorem empty_search_skips_the_picker (w : World) (root : string) (log : list Event) :
  reachesRoot w root →
  (ListScripts root (Lstat w root) = ([], None) →
   main w log = (log ++ [Stdout "No .tmux scripts found."], Exit 1))
  ∧ ∃ new out,
      main w log = (log ++ new, out)
      ∧ ∀ lines, Fzf lines ∈ new →
                 lines ≠ [] ∧ ListScripts root (Lstat w root) = (lines, None).
Proof.
  intros Hreach. rewrite (main_reaches_root w root log Hreach). split.
  - apply main_root_no_scripts.
  - apply main_root_fzf.
Qed.

Lemma empty_search_skips_the_picker_witness :
  main (exampleWorld (Dir "r" None [File "notes" Regular; Dir ".tmux" None []]) scenario
          (muxFailing [])) []
  = ([Stdout "No .tmux scripts found."], Exit 1).
Proof.
  refine (proj1 (empty_search_skips_the_picker
                   (exampleWorld (Dir "r" None [File "notes" Regular; Dir ".tmux" None []])
                      scenario (muxFailing []))
                   "/r" [] _) eq_refl).
  split; [discriminate |]. eexists. repeat split; reflexivity.
Defined.

(** C10: if the walk calls the callback with an I/O error for any entry,
    that call is the last one of the walk, [ListScripts] returns that error,
    and in a run that gets to the search [main] prints the error and exits
    with status 1: the scripts found before are neither printed nor given
    to a picker. *)
Theorem walk_error_aborts_the_search
    (root : string) (t : Tree) (calls : list (Path * option error))
    (scripts : list string) (err : option error) (path : Path) (e : error) :
  Walk (traced (ListScripts_visit root)) t ([], []) = ((calls, scripts), err) →
  (path, Some e) ∈ calls →
  (∃ pre, calls = pre ++ [(path, Some e)] ∧ Forall (λ c, c.2 = None) pre)
  ∧ ListScripts root t = (scripts, Some e)
  ∧ ∀ w log, reachesRoot w root → Lstat w root = t →
             main w log = (log ++ [Stdout ("Error listing scripts: " +:+ e)], Exit 1).
Proof.
  intros Hwalk Hin. unfold Walk in Hwalk.
  destruct (walk_traced root t [] [] []) as (new & scripts' & r & Htraced & Hplain & Hcalls).
  rewrite Htraced in Hwalk. simpl in Hwalk.
  assert (Hr : r = Some (Failure e)
               ∧ ∃ pre, new = pre ++ [(path, Some e)] ∧ Forall (λ c, c.2 = None) pre).
  { assert (Hnew : new = calls) by (by destruct r as [[|?]|]; injection Hwalk).
    subst new. destruct r as [[|e']|]; simpl in Hcalls.
    - rewrite Forall_forall in Hcalls. by apply Hcalls in Hin.
    - destruct Hcalls as (pre & p & -> & Hpre).
      apply elem_of_app in Hin as [Hin | Hin].
      + rewrite Forall_forall in Hpre. by apply Hpre in Hin.
      + apply list_elem_of_singleton in Hin. injection Hin as -> ->. eauto.
    - rewrite Forall_forall in Hcalls. by apply Hcalls in Hin. }
  destruct Hr as [-> (pre & -> & Hpre)]. injection Hwalk as <- <- <-.
  assert (Hlist : ListScripts root t = (scripts', Some e))
    by (unfold ListScripts, Walk; by rewrite Hplain).
  split; [eauto |]. split; [done |].
  intros w log Hreach <-. rewrite (main_reaches_root w root log Hreach).
  by apply (main_root_listing_error w root scripts').
Qed.

Lemma walk_error_aborts_the_search_witness :
  ListScripts "/r" brokenTree = (["/r/a/.tmux"], Some "lstat /r/b: permission denied").
Proof.
  refine (proj1 (proj2 (walk_error_aborts_the_search "/r" brokenTree
            [([], None); (["a"], None); (["a"; ".tmux"], None);
             (["b"], Some "lstat /r/b: permission denied")]
            ["/r/a/.tmux"] (Some "lstat /r/b: permission denied")
            ["b"] "lstat /r/b: permission denied" eq_refl _))).
  apply (bool_decide_unpack _). vm_compute. exact I.
Defined.

(** C5: the failing input.  The session exists and the attach command
    fails: [main] prints the error and returns, so the exit status is 0.
    When the session has just been created, the same failure ends the run
    with status 1. *)
Theorem attach_failure_on_existing_session_exits_zero :
  let existing := exampleWorld scenarioTree scenario (muxFailing [attachCmd "s"]) in
  let created :=
    exampleWorld scenarioTree scenario (muxFailing [hasSessionCmd "s"; attachCmd "s"]) in
  let diagnostic :=
    Stdout "Error attaching to session: failed to attach to session: exit status 1" in
  last (main existing []).1 = Some diagnostic
  ∧ (main existing []).2 = Return ()
  ∧ exitCode (main existing []).2 = 0%Z
  ∧ last (main created []).1 = Some diagnostic
  ∧ exitCode (main created []).2 = 1%Z.
Proof. vm_compute. repeat split. Qed.

(** * Further properties of the program *)

(** ** Lines and settings *)

Lemma Split_not_nil (s : string) (sep : ascii) : Strings.Split s sep ≠ [].
Proof.
  destruct s as [|c s]; simpl; [done |].
  destruct (Ascii.eqb c sep); [done |]. by destruct (Strings.Split s sep).
Qed.

Lemma Split_pieces (s : string) (sep : ascii) :
  Forall (λ piece, sep ∉ bytes piece) (Strings.Split s sep).
Proof.
  induction s as [|c s IH]; simpl.
  - constructor; [apply not_elem_of_nil | constructor].
  - destruct (Ascii.eqb_spec c sep) as [->|Hne].
    + constructor; [apply not_elem_of_nil | done].
    + destruct (Strings.Split s sep) as [|piece pieces].
      * constructor; [|constructor]. simpl.
        apply not_elem_of_cons. split; [done | apply not_elem_of_nil].
      * apply Forall_cons in IH as [Hp Hps]. constructor; [|done].
        simpl. by apply not_elem_of_cons.
Qed.

(** X2.  [strings.Split] loses nothing: joining the pieces with the separator
    gives the string back, and no piece holds the separator.  So the lines
    that [ReadConfig] goes through are all of the file, cut at every line
    feed. *)
Theorem Split_joins_back (s : string) (sep : ascii) :
  String.concat (String sep EmptyString) (Strings.Split s sep) = s
  ∧ Forall (λ piece, sep ∉ bytes piece) (Strings.Split s sep)
  ∧ Strings.Split s sep ≠ [].
Proof.
  split; [| split; [apply Split_pieces | apply Split_not_nil]].
  induction s as [|c s IH]; [done |]. simpl.
  pose proof (Split_not_nil s sep) as Hne.
  destruct (Strings.Split s sep) as [|piece pieces]; [done |].
  destruct (Ascii.eqb_spec c sep) as [->|Hc].
  - change (String.concat (String sep EmptyString) (EmptyString :: piece :: pieces))
      with (String sep (String.concat (String sep EmptyString) (piece :: pieces))).
    by rewrite IH.
  - destruct pieces as [|piece' pieces].
    + simpl in *. by rewrite IH.
    + change (String.concat (String sep EmptyString) (String c piece :: piece' :: pieces))
        with (String c (String.concat (String sep EmptyString) (piece :: piece' :: pieces))).
      by rewrite IH.
Qed.

Lemma ReadConfig_line_unset (config : Config) (key line : string) :
  equals ∉ bytes key →
  ReadConfig_line config line !! key = None →
  config !! key = None ∧ leavesKey key line.
Proof.
  intros Hkey. unfold ReadConfig_line, Strings.SplitN2, leavesKey.
  destruct (bool_decide (line = EmptyString) || Strings.HasPrefix line "#") eqn:Hskip.
  { intros H. split; [done |]. left. by apply skippedLine_test. }
  destruct (Strings.Cut line equals) as [[k v]|] eqn:Hcut.
  - destruct (decide (k = key)) as [->|Hne].
    + by rewrite lookup_insert_eq.
    + rewrite lookup_insert_ne by done. intros H. split; [done |].
      right. intros value ->. rewrite Cut_Some_2 in Hcut by done. congruence.
  - intros H. split; [done |].
    right. intros value ->. rewrite Cut_Some_2 in Hcut by done. congruence.
Qed.

Lemma ReadConfig_lines_unset (config : Config) (key : string) (lines : list string) :
  equals ∉ bytes key →
  foldl ReadConfig_line config lines !! key = None →
  config !! key = None ∧ Forall (leavesKey key) lines.
Proof.
  intros Hkey. revert config. induction lines as [|line lines IH]; intros config; simpl.
  - intros H. split; [done | constructor].
  - intros H. apply IH in H as [H Hlines].
    apply ReadConfig_line_unset in H as [H Hline]; [|done].
    split; [done | by constructor].
Qed.

(** X1.  A key is missing from the settings exactly when no line of the file
    sets it, that is when every line is skipped or is not the key, an equals
    sign and a value.  When that key is [TP_DIRECTORY], [main] says so and
    exits with status 1 before it looks at any directory. *)
Theorem missing_key_means_no_line_sets_it (data key : string) :
  equals ∉ bytes key →
  (ReadConfig_data data !! key = None
   ↔ Forall (leavesKey key) (Strings.Split data newline))
  ∧ ∀ w home log,
      key = "TP_DIRECTORY" →
      ReadConfig_data data !! key = None →
      Args w !! 1 ≠ Some "init" →
      UserHomeDir w = inr home →
      ReadFile w (home +:+ "/.tp.conf") = inr data →
      main w log = (log ++ [Stdout "TP_DIRECTORY is not set in the configuration"], Exit 1).
Proof.
  intros Hkey. split.
  - unfold ReadConfig_data. split.
    + intros H. by apply ReadConfig_lines_unset in H as [_ H].
    + intros H. by rewrite ReadConfig_lines_other.
  - intros w home log -> Hnone Hargs Hhome Hfile. unfold main, ReadConfig.
    rewrite bool_decide_eq_false_2 by done. by rewrite Hhome, Hfile, Hnone.
Qed.

Lemma missing_key_means_no_line_sets_it_witness :
  ReadConfig_data
    (String.concat (String newline EmptyString) ["#TP_DIRECTORY=/srv"; EmptyString; " TP_DIRECTORY=/srv"; "junk"])
    !! "TP_DIRECTORY" = None.
Proof.
  refine (proj2 (proj1 (missing_key_means_no_line_sets_it _ "TP_DIRECTORY" _)) _).
  - apply (bool_decide_unpack _). vm_compute. exact I.
  - vm_compute Strings.Split.
    constructor; [left; right; reflexivity |].
    constructor; [left; left; reflexivity |].
    constructor; [right; intros value; discriminate |].
    constructor; [right; intros value; discriminate |]. constructor.
Defined.

(** ** The walk: how deep it goes, and what it has found when it fails *)

Section WalkMore.
Variable root : string.

Local Abbreviation visit := (ListScripts_visit root).
Local Abbreviation okPath := (Forall (λ name, nameOk name = true)).

Lemma nameOf_prune n t : nameOf (prune n t) = nameOf t.
Proof. destruct n, t; reflexivity. Qed.

Lemma walkNames_pointwise (path : Path) (entries entries' : list Tree) :
  Forall2 (λ e e', nameOf e' = nameOf e
                   ∧ (match e' with File _ _ => false | _ => true end
                      = match e with File _ _ => false | _ => true end)
                   ∧ ∀ scripts, walk visit (path ++ [nameOf e]) e' scripts
                                = walk visit (path ++ [nameOf e]) e scripts)
    entries entries' →
  ∀ scripts, walkNames (walk visit) path entries' scripts
             = walkNames (walk visit) path entries scripts.
Proof.
  induction 1 as [|e e' entries entries' (Hname & Hfile & Hwalk) _ IH]; intros scripts.
  - reflexivity.
  - rewrite !walkNames_cons, Hname, Hwalk.
    destruct (walk visit (path ++ [nameOf e]) e scripts) as [scripts1 [[|err]|]].
    + rewrite Hfile. destruct (match e with File _ _ => false | _ => true end); [apply IH | done].
    + done.
    + apply IH.
Qed.

Lemma walk_prune n :
  ∀ t (path : Path) scripts,
    namesOk t = true → okPath path → (4 ≤ length path + n)%nat →
    walk visit path (prune n t) scripts = walk visit path t scripts.
Proof.
  induction n as [|n IH]; intros [name kind | name readErr entries | name err]
    path scripts Hnames Hpath Hdeep; try reflexivity.
  - simpl prune. rewrite !walk_Dir. destruct readErr as [err|]; [done |].
    rewrite visit_entry by done. simpl.
    rewrite bool_decide_eq_true_2 by lia. done.
  - simpl prune. rewrite !walk_Dir.
    destruct (visit path (Some {| Name := name; Mode := ModeDir |}) readErr scripts)
      as [scripts1 err1].
    destruct readErr; [done |]. destruct err1; [done |].
    apply walkNames_pointwise. simpl in Hnames.
    apply Forall2_fmap_r, Forall_Forall2_diag, Forall_forall. intros e He.
    rewrite forallb_forall in Hnames.
    specialize (Hnames e (proj1 (list_elem_of_In _ _) He)).
    apply andb_true_iff in Hnames as [Hn Hns].
    split; [apply nameOf_prune |]. split; [by destruct n, e |].
    intros scripts'. apply IH; [done | | rewrite length_app; simpl; lia].
    apply Forall_app. split; [done | by constructor].
Qed.

Lemma entriesOf_prune n t (path : Path) :
  Forall (λ e, length e.1 ≤ length path + n)%nat (entriesOf path (prune n t)).
Proof.
  revert t path. induction n as [|n IH];
    intros [name kind | name readErr entries | name err] path; simpl;
    try (repeat constructor; simpl; lia).
  - destruct readErr; repeat constructor; simpl; lia.
  - constructor; [simpl; lia |]. destruct readErr; [constructor |].
    apply Forall_concat, Forall_fmap, Forall_fmap, Forall_forall. intros e _. simpl.
    rewrite nameOf_prune.
    eapply Forall_impl; [apply IH |]. intros [p i]. simpl.
    rewrite length_app. simpl. lia.
Qed.

(** What a failing walk has collected is the beginning of the
    descriptors of the tree. *)
Lemma walkNames_failure_prefix (path : Path) entries :
  Forall (λ t, ∀ (path : Path) scripts scripts' e,
            namesOk t = true → okPath path →
            walk visit path t scripts = (scripts', Some (Failure e)) →
            ∃ found, scripts' = scripts ++ found
                     ∧ found `prefix_of` descriptorsOf root path t) entries →
  okPath path →
  forallb (λ e, nameOk (nameOf e) && namesOk e) entries = true →
  ∀ scripts scripts' e,
    walkNames (walk visit) path entries scripts = (scripts', Some (Failure e)) →
    ∃ found, scripts' = scripts ++ found
             ∧ found `prefix_of`
                 concat (map (λ e, descriptorsOf root (path ++ [nameOf e]) e) entries).
Proof.
  intros IH Hpath.
  induction IH as [|t entries Ht _ IH]; intros Hnames scripts scripts' e; [done |].
  simpl in Hnames. apply andb_true_iff in Hnames as [[Hn Hns]%andb_true_iff Hnames].
  assert (Hchild : okPath (path ++ [nameOf t]))
    by (apply Forall_app; split; [done | by constructor]).
  rewrite walkNames_cons.
  destruct (walk visit (path ++ [nameOf t]) t scripts) as [scripts1 r1] eqn:E.
  simpl concat.
  assert (Hrest : ∀ found1, scripts1 = scripts ++ found1 →
            found1 = descriptorsOf root (path ++ [nameOf t]) t →
            walkNames (walk visit) path entries scripts1 = (scripts', Some (Failure e)) →
            ∃ found, scripts' = scripts ++ found
              ∧ found `prefix_of`
                  descriptorsOf root (path ++ [nameOf t]) t
                  ++ concat (map (λ e, descriptorsOf root (path ++ [nameOf e]) e) entries)).
  { intros found1 -> -> H. apply IH in H as (found & -> & Hfound); [|done].
    eexists. rewrite <- app_assoc. split; [done | by apply prefix_app]. }
  destruct r1 as [[|e1]|].
  - apply walk_ListScripts in E as [Hdir E]; [| done | done].
    destruct t; try done. by apply (Hrest _ E eq_refl).
  - intros [= <- <-]. apply Ht in E as (found & -> & Hfound); [| done | done].
    exists found. split; [done | by apply prefix_app_r].
  - apply walk_ListScripts in E; [| done | done]. by apply (Hrest _ E eq_refl).
Qed.

Lemma walk_failure_prefix t :
  ∀ (path : Path) scripts scripts' e,
    namesOk t = true → okPath path →
    walk visit path t scripts = (scripts', Some (Failure e)) →
    ∃ found, scripts' = scripts ++ found ∧ found `prefix_of` descriptorsOf root path t.
Proof.
  induction t as [name kind | name readErr entries IH | name err] using Tree_nested_ind;
    intros path scripts scripts' e Hnames Hpath.
  - rewrite walk_File.
    destruct (visit_no_error root path {| Name := name; Mode := ModeFile kind |} scripts)
      as (s & r & -> & Hr).
    intros [= <- ->]. by destruct (Hr e).
  - rewrite walk_Dir. destruct readErr as [err|].
    + rewrite visit_error. intros [= <- <-].
      exists []. rewrite app_nil_r. split; [done | apply prefix_nil].
    + rewrite visit_entry by done. simpl. case_bool_decide; [done |].
      rewrite andb_false_r, descriptorsOf_Dir.
      by apply walkNames_failure_prefix.
  - rewrite walk_NoStat, visit_error. intros [= <- <-].
    exists []. rewrite app_nil_r. split; [done | apply prefix_nil].
Qed.

Lemma Walk_scripts_prefix t scripts err :
  namesOk t = true →
  Walk visit t [] = (scripts, err) →
  scripts `prefix_of` descriptorsOf root [] t
  ∧ (err = None → scripts = descriptorsOf root [] t).
Proof.
  intros Hnames. unfold Walk.
  destruct (walk visit [] t []) as [scripts' r] eqn:E.
  destruct r as [[|e]|]; intros [= <- <-].
  - apply walk_ListScripts in E as [_ ->]; done.
  - apply walk_failure_prefix in E as (found & -> & Hfound); done.
  - apply walk_ListScripts in E as ->; done.
Qed.
End WalkMore.

(** X3.  [ListScripts] never looks below the fourth level: a tree and the same
    tree cut there, which has no entry further down, give the same scripts
    and the same error.  What cannot be read deeper than that does not make
    the search fail. *)
Theorem ListScripts_ignores_deep_entries (root : string) (t : Tree) :
  namesOk t = true →
  ListScripts root (prune 4 t) = ListScripts root t
  ∧ Forall (λ e, length e.1 ≤ 4)%nat (entriesOf [] (prune 4 t)).
Proof.
  intros Hnames. split; [|apply (entriesOf_prune 4 t [])].
  unfold ListScripts, Walk. rewrite walk_prune; [done | done | constructor | simpl; lia].
Qed.

Lemma ListScripts_ignores_deep_entries_witness :
  readable deepBrokenTree = false
  ∧ ListScripts "/r" (prune 4 deepBrokenTree) = ListScripts "/r" deepBrokenTree
  ∧ ListScripts "/r" deepBrokenTree = (["/r/a/.tmux"], None).
Proof.
  split; [reflexivity |].
  split; [exact (proj1 (ListScripts_ignores_deep_entries "/r" deepBrokenTree eq_refl)) |].
  reflexivity.
Defined.



(** *** The paths of the walk *)

Lemma Split_app_sep (s t : string) (sep : ascii) :
  Strings.Split (s +:+ String sep t) sep = Strings.Split s sep ++ Strings.Split t sep.
Proof.
  induction s as [|c s IH].
  - rewrite append_nil_l. simpl. by rewrite Ascii.eqb_refl.
  - rewrite append_cons. simpl. rewrite IH.
    destruct (Ascii.eqb c sep); [done |].
    pose proof (Split_not_nil s sep). by destruct (Strings.Split s sep).
Qed.

Lemma concat_snoc (sep : string) (out : list string) (name : string) :
  String.concat sep (out ++ [name])
  = match out with
    | [] => name
    | _ => String.concat sep out +:+ sep +:+ name
    end.
Proof.
  induction out as [|x out IH]; [done |].
  destruct out as [|y out]; [done |].
  change (String.concat sep ((x :: y :: out) ++ [name]))
    with (x +:+ sep +:+ String.concat sep ((y :: out) ++ [name])).
  rewrite IH.
  change (String.concat sep (x :: y :: out)) with (x +:+ sep +:+ String.concat sep (y :: out)).
  by rewrite !append_assoc.
Qed.

(** [Clean] and [Join] on paths of the tests of Go's [path/filepath]. *)
Lemma Clean_examples :
  Clean EmptyString = "." ∧ Clean "/" = "/" ∧ Clean "abc/" = "abc" ∧ Clean "//abc//" = "/abc"
  ∧ Clean "abc/./../def" = "def" ∧ Clean "/../abc" = "/abc"
  ∧ Clean "abc/def/../../.." = ".." ∧ Clean "abc/../../././../def" = "../../def"
  ∧ Join2 "/r/" "a" = "/r/a" ∧ Join2 "." "a" = "a" ∧ Join2 "/" "a" = "/a"
  ∧ Join2 EmptyString "a" = "a" ∧ Join2 "a/" EmptyString = "a".
Proof. repeat split. Qed.

(** The name of an entry of a directory: not empty, without separator, and
    neither [.] nor [..]. *)
Lemma Clean_element_name (rooted : bool) (out : list string) (name : string) :
  name ≠ EmptyString → name ≠ "." → name ≠ ".." →
  Clean_element rooted out name = out ++ [name].
Proof.
  intros H0 H1 H2. unfold Clean_element.
  by rewrite !bool_decide_eq_false_2 by done.
Qed.

(** A cleaned path that ends with a name ends with that name, on its own or
    after a separator. *)
Lemma Clean_last (dir name : string) :
  PathSeparator ∉ bytes name → name ≠ EmptyString → name ≠ "." → name ≠ ".." →
  Clean (dir +:+ "/" +:+ name) = name
  ∨ ∃ d, Clean (dir +:+ "/" +:+ name) = d +:+ "/" +:+ name.
Proof.
  intros Hsep H0 H1 H2. unfold Clean. cbv zeta.
  change ("/" +:+ name) with (String PathSeparator name).
  rewrite Split_app_sep, (Split_no_sep name) by done.
  generalize (Strings.HasPrefix (dir +:+ String PathSeparator name) "/"). intros rooted.
  rewrite foldl_app. cbn [foldl]. rewrite Clean_element_name by done.
  set (out := foldl _ [] (Strings.Split dir PathSeparator)).
  rewrite concat_snoc.
  change (String PathSeparator name) with ("/" +:+ name).
  destruct rooted.
  - right. destruct out as [|x out]; [by exists EmptyString |].
    exists ("/" +:+ String.concat "/" (x :: out)). by rewrite !append_assoc.
  - destruct out as [|x out]; simpl app; cbv iota; [by left |].
    right. by exists (String.concat "/" (x :: out)).
Qed.

Lemma Clean_name (name : string) :
  PathSeparator ∉ bytes name → name ≠ EmptyString → name ≠ "." → name ≠ ".." →
  Clean name = name.
Proof.
  intros Hsep H0 H1 H2. unfold Clean. cbv zeta. rewrite Split_no_sep by done.
  cbn [foldl]. rewrite Clean_element_name by done.
  destruct name as [|c name]; [done |]. simpl in Hsep.
  apply not_elem_of_cons in Hsep as [Hc _]. simpl.
  by rewrite eqb_false.
Qed.

Lemma Join2_last (dir name : string) :
  PathSeparator ∉ bytes name → name ≠ EmptyString → name ≠ "." → name ≠ ".." →
  Join2 dir name = name ∨ ∃ d, Join2 dir name = d +:+ "/" +:+ name.
Proof.
  intros Hsep H0 H1 H2. unfold Join2.
  case_bool_decide; [|by apply Clean_last].
  rewrite bool_decide_eq_false_2 by done. left. by apply Clean_name.
Qed.

Lemma Join_snoc (root : string) (path : Path) (name : string) :
  Join root (path ++ [name]) = Join2 (Join root path) name.
Proof. unfold Join. by rewrite foldl_app. Qed.

(** The paths below a rooted root are rooted. *)
Lemma Join2_rooted (dir' name : string) :
  ∃ rest, Join2 (String PathSeparator dir') name = String PathSeparator rest.
Proof. unfold Join2, Clean. rewrite bool_decide_eq_false_2 by done. by eexists. Qed.

Lemma Join_rooted (root' : string) (path : Path) :
  ∃ rest, Join (String PathSeparator root') path = String PathSeparator rest.
Proof.
  revert root'. induction path as [|name path IH]; intros root'; [by eexists |].
  unfold Join in *. simpl. destruct (Join2_rooted root' name) as [rest ->]. apply IH.
Qed.

Lemma entriesOf_shape t :
  ∀ (path0 p : Path) (i : FileInfo),
    (p, i) ∈ entriesOf path0 t →
    (p = path0 ∧ IsDir i = isDirTree t) ∨ ∃ q, p = path0 ++ q ++ [Name i].
Proof.
  assert (Hstrong : ∀ (path0 p : Path) (i : FileInfo),
            (p, i) ∈ entriesOf path0 t →
            (p = path0 ∧ Name i = nameOf t ∧ IsDir i = isDirTree t)
            ∨ ∃ q, p = path0 ++ q ++ [Name i]).
  { induction t as [name kind | name readErr entries IH | name err] using Tree_nested_ind;
      intros path0 p i Hin; simpl in Hin.
    - apply list_elem_of_singleton in Hin as [= -> ->]. by left.
    - apply elem_of_cons in Hin as [[= -> ->] | Hin]; [by left |].
      destruct readErr; [by apply elem_of_nil in Hin |].
      apply list_elem_of_In, in_concat in Hin as (es & Hes & Hin).
      apply in_map_iff in Hes as (e & <- & He).
      rewrite Forall_forall in IH.
      apply list_elem_of_In in Hin, He.
      destruct (IH e He _ _ _ Hin) as [(-> & <- & _) | (q & ->)]; right.
      + by exists [].
      + exists (nameOf e :: q). by rewrite <- !app_assoc.
    - by apply elem_of_nil in Hin. }
  intros path0 p i Hin. destruct (Hstrong path0 p i Hin) as [(? & _ & ?) | ?]; auto.
Qed.

Lemma descriptor_shape (root : string) (t : Tree) (p : string) :
  isDirTree t = true →
  p ∈ descriptorsOf root [] t →
  ∃ dir : Path,
    (length dir ≤ 2)%nat
    ∧ p = Join root (dir ++ [".tmux"])
    ∧ (p = ".tmux" ∨ ∃ d, p = d +:+ "/.tmux").
Proof.
  intros Hdir. unfold descriptorsOf. rewrite list_elem_of_fmap.
  intros ([path info] & -> & [Hd Hin]%list_elem_of_filter).
  unfold isDescriptor in Hd. simpl in *.
  apply andb_true_iff in Hd as [[Hn Hnd]%andb_true_iff Hlen].
  apply bool_decide_eq_true in Hn, Hlen. apply negb_true_iff in Hnd.
  destruct (entriesOf_shape t [] path info Hin) as [[_ H] | (q & ->)]; [congruence |].
  exists q. simpl. rewrite Hn. split; [|split; [done |]].
  - simpl in Hlen. rewrite length_app in Hlen. simpl in Hlen. lia.
  - rewrite Join_snoc. apply (Join2_last _ ".tmux"); [|done..].
    apply (bool_decide_unpack _). vm_compute. exact I.
Qed.



(** X6.  When the root is not a directory for [os.Lstat], as a symbolic link to
    a directory is although [os.Stat] follows it, the walk sees the root
    alone: the search returns the root if its own name is [.tmux] and
    nothing otherwise, and then [main] exits with status 1 as for an empty
    directory. *)
Theorem root_that_is_no_directory (root name : string) (kind : FileKind) :
  ListScripts root (File name kind)
  = (if bool_decide (name = ".tmux") then [root] else [], None)
  ∧ ∀ w log,
      reachesRoot w root → Lstat w root = File name kind → name ≠ ".tmux" →
      main w log = (log ++ [Stdout "No .tmux scripts found."], Exit 1).
Proof.
  assert (Hlist : ListScripts root (File name kind)
                  = (if bool_decide (name = ".tmux") then [root] else [], None)).
  { unfold ListScripts, Walk. rewrite walk_File, visit_entry by constructor. simpl.
    by case_bool_decide. }
  split; [done |]. intros w log Hreach Htree Hname.
  rewrite (main_reaches_root w root log Hreach).
  apply main_root_no_scripts. rewrite Htree, Hlist. by rewrite bool_decide_eq_false_2.
Qed.

(** X7.  The minimal variant: once the root is a directory for [os.Stat], the
    process ends with status 0 whatever happens in the walk.  An error of
    the walk is not reported; the descriptors found before it are printed,
    one per line and in the order of the walk, and nothing else is. *)
Theorem minimal_variant_drops_walk_errors
    (root : string) (w : World) (log : list Event) (stat : FileInfo) :
  root ≠ EmptyString →
  Stat w root = inr stat →
  IsDir stat = true →
  namesOk (Lstat w root) = true →
  ∃ printed,
    main_minimal root w log = (log ++ map Stdout printed, Return ())
    ∧ printed = (ListScripts root (Lstat w root)).1
    ∧ printed `prefix_of` descriptorsOf root [] (Lstat w root).
Proof.
  intros Hroot Hstat Hdir Hnames. unfold main_minimal.
  rewrite bool_decide_eq_false_2, Hstat, Hdir by done. simpl. unfold ListScripts.
  destruct (Walk (ListScripts_visit root) (Lstat w root) []) as [printed err] eqn:E.
  exists printed. split; [done |]. split; [done |].
  by apply Walk_scripts_prefix in E as [H _].
Qed.

Lemma minimal_variant_drops_walk_errors_witness :
  main_minimal "/r" (exampleWorld brokenTree scenario (muxFailing [])) []
  = ([Stdout "/r/a/.tmux"], Return ()).
Proof.
  destruct (minimal_variant_drops_walk_errors "/r"
              (exampleWorld brokenTree scenario (muxFailing [])) []
              {| Name := "r"; Mode := ModeDir |}
              ltac:(discriminate) eq_refl eq_refl eq_refl) as (printed & -> & -> & _).
  reflexivity.
Defined.

(** ** The construction of a session *)

Lemma createSession_failure_witness :
  ∃ pre step argv rest e0,
    sessionSteps threeWindows "/proj" = pre ++ (step, argv) :: rest
    ∧ map Exec (take 7 (sessionCmds threeWindows "/proj"))
      = [] ++ map Exec (map snd pre) ++ [Exec argv]
    ∧ muxFailing [sendKeysCmd threeWindows 1 "make"] ([] ++ map Exec (map snd pre)) argv
      = Some e0
    ∧ "failed to send command to window 1: exit status 1" = stepError step e0.
Proof.
  exact (createSession_failure
           (exampleWorld scenarioTree threeWindows
              (muxFailing [sendKeysCmd threeWindows 1 "make"]))
           threeWindows "/proj" [] _ _ eq_refl).
Defined.

Lemma createSession_success (w : World) (session : TmuxSession) (basePath : string)
    (log log' : list Event) :
  createSession w session basePath log = (log', Return None) →
  log' = log ++ map Exec (sessionCmds session basePath).
Proof.
  rewrite createSession_steps. intros Hrun.
  destruct (runSteps_result w (sessionSteps session basePath) log)
    as (issued & rest & err & Hsteps & Hlog & Herr).
  rewrite Hrun in Hlog. injection Hlog as -> <-. subst rest.
  rewrite app_nil_r in Hsteps. subst issued. by rewrite map_Exec_steps.
Qed.

Lemma omap_concat_imap_none {A B C} (g : B → option C) (f : nat → A → list B) (l : list A) :
  (∀ j y, l !! j = Some y → omap g (f j y) = []) →
  omap g (concat (imap f l)) = [].
Proof.
  revert f. induction l as [|x l IH]; intros f Hf; [done |].
  rewrite imap_cons, concat_cons, omap_app, (Hf 0 x) by done. simpl.
  apply IH. intros j y Hj. by apply (Hf (S j)).
Qed.

Lemma omap_concat_imap_only {A B C} (g : B → option C) (f : nat → A → list B)
    (l : list A) (i : nat) (x : A) :
  l !! i = Some x →
  (∀ j y, j ≠ i → l !! j = Some y → omap g (f j y) = []) →
  omap g (concat (imap f l)) = omap g (f i x).
Proof.
  revert f i. induction l as [|y l IH]; intros f i Hi Hothers; [done |].
  rewrite imap_cons, concat_cons, omap_app. destruct i as [|i]; simpl in Hi.
  - injection Hi as ->. rewrite omap_concat_imap_none; [by rewrite app_nil_r |].
    intros j z Hj. by apply (Hothers (S j)).
  - rewrite (Hothers 0 y) by done. simpl.
    apply (IH (f ∘ S) i Hi). intros j z Hne Hj. apply (Hothers (S j)); [lia | done].
Qed.

Lemma typedInto_cons (target : string) (argv : list string) (cmds : list (list string)) :
  typedInto target (argv :: cmds)
  = match (if bool_decide (argv !! 1 = Some "send-keys")
              && bool_decide (argv !! 3 = Some target)
           then argv !! 4 else None) with
    | Some text => text :: typedInto target cmds
    | None => typedInto target cmds
    end.
Proof. reflexivity. Qed.

Lemma typedInto_send_keys (session : TmuxSession) (i j : nat) (text : string)
    (cmds : list (list string)) :
  typedInto (targetWindow session i) (sendKeysCmd session j text :: cmds)
  = if bool_decide (i = j)
    then text :: typedInto (targetWindow session i) cmds
    else typedInto (targetWindow session i) cmds.
Proof.
  rewrite typedInto_cons. unfold sendKeysCmd. simpl.
  rewrite ?(bool_decide_eq_true_2 (Some "send-keys" = Some "send-keys")) by done. simpl.
  destruct (decide (i = j)) as [->|Hij].
  - by rewrite !bool_decide_eq_true_2.
  - rewrite !bool_decide_eq_false_2; [done | done |].
    intros [= H]. by apply targetWindow_inj in H.
Qed.

Lemma typedInto_window_op (session : TmuxSession) (i j : nat) (window : TmuxWindow)
    (cmds : list (list string)) :
  typedInto (targetWindow session i) (windowCmd session j window :: cmds)
  = typedInto (targetWindow session i) cmds.
Proof.
  rewrite typedInto_cons. unfold windowCmd. destruct (bool_decide (j = 0)); reflexivity.
Qed.

Lemma typedInto_commands (session : TmuxSession) (i j : nat) (commands : list string) :
  typedInto (targetWindow session i) (map (sendKeysCmd session j) commands)
  = if bool_decide (i = j) then commands else [].
Proof.
  induction commands as [|cmdStr commands IH]; [by case_bool_decide |].
  rewrite map_cons, typedInto_send_keys, IH. by case_bool_decide.
Qed.

Lemma typedInto_window (session : TmuxSession) (basePath : string)
    (i j : nat) (window : TmuxWindow) :
  typedInto (targetWindow session i)
    (windowCmd session j window
     :: sendKeysCmd session j ("cd " +:+ basePath)
     :: map (sendKeysCmd session j) (Commands window))
  = if bool_decide (i = j) then ("cd " +:+ basePath) :: Commands window else [].
Proof.
  rewrite typedInto_window_op, typedInto_send_keys, typedInto_commands.
  by case_bool_decide.
Qed.

(** X9.  When [createSession] succeeds, what has been typed into the window at
    position [i], of all the commands issued, is [cd basePath] and then the
    commands of that window of the descriptor, as they are written and in
    their order: no command goes to another window's target, and positions
    have distinct targets. *)
Theorem each_window_is_typed_its_commands
    (w : World) (session : TmuxSession) (basePath : string) (log log' : list Event) :
  createSession w session basePath log = (log', Return None) →
  ∃ cmds,
    log' = log ++ map Exec cmds
    ∧ (∀ i window,
         Windows session !! i = Some window →
         typedInto (targetWindow session i) cmds = ("cd " +:+ basePath) :: Commands window)
    ∧ ∀ i j, targetWindow session i = targetWindow session j → i = j.
Proof.
  intros Hrun. exists (sessionCmds session basePath).
  split; [by apply createSession_success in Hrun |].
  split; [|apply targetWindow_inj].
  intros i window Hi. rewrite sessionCmds_windows.
  rewrite typedInto_cons. simpl. unfold typedInto at 1.
  rewrite (omap_concat_imap_only _ _ _ i window Hi).
  - fold (typedInto (targetWindow session i)
            (windowCmd session i window
             :: sendKeysCmd session i ("cd " +:+ basePath)
             :: map (sendKeysCmd session i) (Commands window))).
    by rewrite typedInto_window, bool_decide_eq_true_2.
  - intros j y Hne _.
    fold (typedInto (targetWindow session i)
            (windowCmd session j y
             :: sendKeysCmd session j ("cd " +:+ basePath)
             :: map (sendKeysCmd session j) (Commands y))).
    by rewrite typedInto_window, bool_decide_eq_false_2.
Qed.

Lemma each_window_is_typed_its_commands_witness :
  ∃ cmds,
    map Exec (sessionCmds threeWindows "/proj") = [] ++ map Exec cmds
    ∧ typedInto "s:1" cmds = ["cd /proj"; "make"; "make test"].
Proof.
  destruct (each_window_is_typed_its_commands
              (exampleWorld scenarioTree threeWindows (muxFailing []))
              threeWindows "/proj" [] (map Exec (sessionCmds threeWindows "/proj")) eq_refl)
    as (cmds & Hlog & Htyped & _).
  exists cmds. split; [exact Hlog |].
  exact (Htyped 1 {| WindowName := "build"; Commands := ["make"; "make test"] |} eq_refl).
Defined.

Lemma length_concat_imap {A B} (f : nat → A → list B) (g : A → nat) (l : list A) :
  (∀ i x, length (f i x) = g x) →
  length (concat (imap f l)) = sum_list_with g l.
Proof.
  revert f. induction l as [|x l IH]; intros f Hf; [done |].
  rewrite imap_cons, concat_cons, length_app, Hf. simpl. f_equal. apply IH.
  intros i y. apply Hf.
Qed.

(** X10.  A successful [createSession] has run one command for the session and,
    for each window, two commands and one more for each of its commands, and
    nothing else: a descriptor without windows costs the single
    [new-session], and a window without commands is still created and sent
    to the base path. *)
Theorem createSession_runs_two_commands_per_window_and_one_per_command
    (w : World) (session : TmuxSession) (basePath : string) (log log' : list Event) :
  createSession w session basePath log = (log', Return None) →
  length log'
  = length log + 1
    + sum_list_with (λ window, 2 + length (Commands window)) (Windows session)
  ∧ (Windows session = [] → log' = log ++ [Exec (newSessionCmd session)]).
Proof.
  intros Hrun. apply createSession_success in Hrun as ->.
  rewrite sessionCmds_windows. split.
  - rewrite length_app, length_map.
    change (length (?a :: ?l)) with (S (length l)).
    rewrite (length_concat_imap _ (λ window, 2 + length (Commands window))); [lia |].
    intros i window. simpl. by rewrite length_map.
  - by intros ->.
Qed.

Lemma createSession_runs_two_commands_per_window_and_one_per_command_witness :
  length (map Exec (sessionCmds threeWindows "/proj")) = 0 + 1 + 9.
Proof.
  exact (proj1 (createSession_runs_two_commands_per_window_and_one_per_command
                  (exampleWorld scenarioTree threeWindows (muxFailing []))
                  threeWindows "/proj" [] (map Exec (sessionCmds threeWindows "/proj"))
                  eq_refl)).
Defined.

(** ** Whole runs *)

Section RunFacts.
Variable w : World.

Lemma materialize_shape (session : TmuxSession) (basePath : string) (log : list Event) :
  ∃ new out,
    materialize w session basePath log = (log ++ new, out)
    ∧ (∃ rest, tmuxCmds new = hasSessionCmd (SessionName session) :: rest)
    ∧ (out = Return () → last (tmuxCmds new) = Some (attachCmd (SessionName session)))
    ∧ (∀ code, out = Exit code → code = 1%Z ∧ ∃ before line, new = before ++ [Stdout line]).
Proof.
  destruct (Tmux w log (hasSessionCmd (SessionName session))) as [e|] eqn:Hcheck.
  - rewrite (materialize_absent w session basePath log e Hcheck), createSession_steps.
    destruct (runSteps_result w (sessionSteps session basePath)
                (log ++ [Exec (hasSessionCmd (SessionName session))]))
      as (issued & rest & err & _ & -> & _).
    destruct err as [e1|].
    { eexists _, _. rewrite <- !app_assoc. split; [reflexivity |].
      split; [by eexists |]. split; [done |].
      intros code [= <-]. split; [done |].
      by exists (Exec (hasSessionCmd (SessionName session))
                 :: map (λ s, Exec s.2) issued), ("Error creating session: " +:+ e1). }
    rewrite attachSession_result.
    destruct (Tmux w _ (attachCmd _)) as [e2|]; simpl;
      eexists _, _; rewrite <- !app_assoc; (split; [reflexivity |]);
      (split; [by eexists |]).
    + split; [done |]. intros code [= <-]. split; [done |].
      eexists (Exec (hasSessionCmd (SessionName session))
               :: map (λ s, Exec s.2) issued ++ [_; _]), _.
      simpl. by rewrite <- app_assoc.
    + split; [|done]. intros _. simpl.
      rewrite tmuxCmds_app, tmuxCmds_steps. simpl.
      change (?a :: ?l ++ [?b]) with ((a :: l) ++ [b]). apply last_snoc.
  - destruct (materialize_exists w session basePath log Hcheck) as (said & -> & Hsaid & _).
    eexists _, _. split; [reflexivity |].
    rewrite tmuxCmds_app, Hsaid, app_nil_r.
    split; [by eexists |]. split; [done | done].
Qed.

(** What a run of [main] logs and how it ends: an exit is with status 1
    and right after a printed line; and the multiplexer is not run at all,
    or the run has got to the search below a root, the search and the
    picker and the reading of the chosen descriptor have succeeded, the
    first command is the existence check of that descriptor's session
    and, if [main] returns, the last one is the attach. *)
Lemma main_run (log : list Event) :
  ∃ new out,
    main w log = (log ++ new, out)
    ∧ (∀ code, out = Exit code → code = 1%Z ∧ ∃ before line, new = before ++ [Stdout line])
    ∧ (tmuxCmds new = [] ∨ ranSession w new out).
Proof.
  assert (Hfail : ∀ line, ∃ new out,
            (log ++ [Stdout line], @Exit unit 1) = (log ++ new, out)
            ∧ (∀ code, out = Exit code →
                       code = 1%Z ∧ ∃ before line, new = before ++ [Stdout line])
            ∧ (tmuxCmds new = [] ∨ ranSession w new out)).
  { intros line. exists [Stdout line], (Exit 1). split; [done |].
    split; [|by left]. intros code [= <-]. split; [done |]. by exists [], line. }
  unfold main. case_bool_decide as Hargs.
  { unfold bind, initTmuxConfig.
    destruct (MarshalIndent w minimalConfig) as [e|data]; [apply Hfail |].
    unfold bind, emit. destruct (WriteFileErr w _) as [e|]; unfold ret, os_Exit; simpl.
    - eexists _, _. rewrite <- app_assoc. split; [reflexivity |].
      split; [|by left]. intros code [= <-]. split; [done |].
      by exists [WriteFile ".tmux" data], ("Error initializing tmux config: "
                                         +:+ Errorf "failed to write .tmux file" e).
    - eexists _, _. rewrite <- app_assoc. split; [reflexivity |].
      split; [done | by left]. }
  destruct (ReadConfig _ _) as [e|config] eqn:Hconfig; [apply Hfail |].
  destruct (config !! "TP_DIRECTORY") as [root|] eqn:Hroot; [|apply Hfail].
  destruct (validDirectory w root) eqn:Hdir; [|apply Hfail]. simpl.
  assert (Hreach : reachesRoot w root) by (split; [done | by exists config]).
  unfold main_root.
  destruct (ListScripts root (Lstat w root)) as [scripts [e|]] eqn:Hlist; [apply Hfail |].
  case_bool_decide; [apply Hfail |].
  unfold bind at 1, SelectScriptWithFzf.
  destruct (StdinPipe w); [apply Hfail |].
  unfold bind at 1, emit at 1.
  destruct (Picker w scripts) as [e|output] eqn:Hpick.
  { unfold ret, bind, emit, os_Exit. eexists _, _. rewrite <- app_assoc.
    split; [reflexivity |]. split; [|by left].
    intros code [= <-]. split; [done |]. by exists [Fzf scripts], ("Error selecting script: " +:+ e). }
  unfold ret at 1.
  destruct (ReadSessionConfig w (Strings.TrimSpace output)) as [e|session] eqn:Hread.
  { unfold ret, bind, emit, os_Exit. eexists _, _. rewrite <- app_assoc.
    split; [reflexivity |]. split; [|by left].
    intros code [= <-]. split; [done |].
    by exists [Fzf scripts], ("Error reading tmux session configuration: " +:+ e). }
  destruct (materialize_shape session (Dir_ w (Strings.TrimSpace output))
              (log ++ [Fzf scripts])) as (new & out & -> & [rest Hfirst] & Hlast & Hexit).
  exists (Fzf scripts :: new), out. rewrite <- app_assoc. split; [done |]. split.
  - intros code Hcode. destruct (Hexit code Hcode) as (-> & before & line & ->).
    split; [done |]. by exists (Fzf scripts :: before), line.
  - right. exists root, scripts, output, session, rest.
    exact (conj Hreach (conj Hlist (conj Hpick (conj Hread (conj Hfirst Hlast))))).
Qed.
End RunFacts.

(** X11.  No multiplexer command is run before the search, the picker and the
    reading of the chosen descriptor have all succeeded.  The commands of a
    run, if there are any, begin with the existence check of the session
    that this descriptor names, and when [main] returns they end with the
    attach to it. *)
Theorem commands_begin_with_the_check_and_end_with_the_attach
    (w : World) (log : list Event) :
  ∃ new out,
    main w log = (log ++ new, out)
    ∧ (tmuxCmds new = [] ∨ ranSession w new out).
Proof.
  destruct (main_run w log) as (new & out & Hrun & _ & Hcmds). by exists new, out.
Qed.

(** X12.  Whenever [main] ends the process with [os.Exit], the status is 1 and
    the last thing that happened before is a line printed to standard
    output: no failure is silent, and nothing is cleaned up after the
    message. *)
Theorem every_exit_follows_a_printed_line (w : World) (log : list Event) (code : Z) :
  (main w log).2 = Exit code →
  code = 1%Z ∧ ∃ before line, (main w log).1 = before ++ [Stdout line].
Proof.
  destruct (main_run w log) as (new & out & -> & Hexit & _). simpl.
  intros Hcode. destruct (Hexit code Hcode) as (-> & before & line & ->).
  split; [done |]. exists (log ++ before), line. by rewrite app_assoc.
Qed.

Lemma every_exit_follows_a_printed_line_witness :
  1%Z = 1%Z
  ∧ ∃ before line,
      (main (exampleWorld brokenTree scenario (muxFailing [])) []).1 = before ++ [Stdout line].
Proof.
  exact (every_exit_follows_a_printed_line
           (exampleWorld brokenTree scenario (muxFailing [])) [] 1 eq_refl).
Defined.

(** X13.  The [init] subcommand consults nothing but the encoder and the file it
    writes: two environments that agree on these give the same run, whatever
    their settings, directories, picker and multiplexer.  The run starts no
    multiplexer command and no picker, and it returns exactly when the
    descriptor has been encoded and written to [.tmux], which it reports;
    a failure to encode writes nothing. *)
Theorem init_consults_no_settings (w w' : World) (log : list Event) :
  Args w !! 1 = Some "init" →
  Args w' !! 1 = Some "init" →
  MarshalIndent w minimalConfig = MarshalIndent w' minimalConfig →
  WriteFileErr w ".tmux" = WriteFileErr w' ".tmux" →
  main w log = main w' log
  ∧ ∃ new out,
      main w log = (log ++ new, out)
      ∧ tmuxCmds new = []
      ∧ Forall (λ ev, isFzf ev = false) new
      ∧ (out = Return ()
         ↔ ∃ data, MarshalIndent w minimalConfig = inr data
                   ∧ WriteFileErr w ".tmux" = None
                   ∧ new = [WriteFile ".tmux" data;
                            Stdout "Created minimal .tmux file in the current directory."])
      ∧ (∀ e, MarshalIndent w minimalConfig = inl e →
              Forall (λ ev, ∃ line, ev = Stdout line) new).
Proof.
  intros Hw Hw' Hmarshal Hwrite. unfold main.
  rewrite !bool_decide_eq_true_2 by done. unfold initTmuxConfig.
  rewrite <- Hmarshal, <- Hwrite. split; [done |].
  destruct (MarshalIndent w minimalConfig) as [e|data].
  { eexists _, _. unfold bind, ret, emit, os_Exit. simpl. split; [reflexivity |].
    repeat split; try done.
    - by repeat constructor.
    - by intros (data & [=] & _).
    - intros e' _. repeat constructor. by eexists. }
  unfold bind, emit. destruct (WriteFileErr w ".tmux") as [e|];
    unfold ret, os_Exit; simpl; eexists _, _; rewrite <- app_assoc;
    (split; [reflexivity |]); repeat split; try done.
  - by repeat constructor.
  - by intros (data' & _ & [=] & _).
  - by repeat constructor.
  - intros _. by exists data.
Qed.

Lemma init_consults_no_settings_witness :
  main (withArgs ["tp"; "init"] (exampleWorld scenarioTree scenario (muxFailing []))) []
  = main (withArgs ["tp"; "init"]
            (exampleWorld brokenTree threeWindows (muxFailing [attachCmd "s"]))) [].
Proof.
  exact (proj1 (init_consults_no_settings
                  (withArgs ["tp"; "init"] (exampleWorld scenarioTree scenario (muxFailing [])))
                  (withArgs ["tp"; "init"]
                     (exampleWorld brokenTree threeWindows (muxFailing [attachCmd "s"])))
                  [] eq_refl eq_refl eq_refl eq_refl)).
Defined.

(** ** The picker *)

Lemma plainEnds_script (c : ascii) (rest : string) :
  plain c = true → plainEnds (String c rest +:+ "/.tmux") = true.
Proof.
  intros Hc. unfold plainEnds. rewrite append_cons. simpl bytes. cbv iota beta.
  rewrite Hc, bytes_append.
  change (bytes "/.tmux") with (bytes "/.tmu" ++ bytes "x").
  rewrite app_assoc, app_comm_cons. simpl (bytes "x"). by rewrite last_snoc.
Qed.

(** X14.  What the picker prints comes back as the candidate it was given:
    when the root is a rooted path, one that begins with the separator, and
    the picker prints one of the scripts found, with white space such as the
    line feed around it, the script selected is that candidate, byte for
    byte. *)
Theorem picker_output_is_the_candidate
    (w : World) (root' : string) (t : Tree)
    (scripts : list string) (err : option error)
    (candidate l r : string) (log : list Event) :
  namesOk t = true →
  isDirTree t = true →
  ListScripts (String PathSeparator root') t = (scripts, err) →
  candidate ∈ scripts →
  StdinPipe w = None →
  allSpace l → allSpace r →
  Picker w scripts = inr (l +:+ candidate +:+ r) →
  SelectScriptWithFzf w scripts log = (log ++ [Fzf scripts], Return (inr candidate)).
Proof.
  intros Hnames Hdir Hlist Hin Hpipe Hl Hr Hpick.
  apply Walk_scripts_prefix in Hlist as [[others Hothers] _]; [|done].
  assert (Hd : candidate ∈ descriptorsOf (String PathSeparator root') [] t)
    by (rewrite Hothers; apply elem_of_app; by left).
  apply descriptor_shape in Hd as (dir & _ & Hjoin & Hshape); [|done].
  destruct (Join_rooted root' (dir ++ [".tmux"])) as [rest Hrest].
  rewrite <- Hjoin in Hrest.
  assert (Hends : plainEnds candidate = true).
  { destruct Hshape as [-> | [d ->]]; [done |].
    destruct d as [|c d]; [done |].
    rewrite append_cons in Hrest. injection Hrest as -> _.
    by apply plainEnds_script. }
  unfold SelectScriptWithFzf. rewrite Hpipe. unfold bind, emit. rewrite Hpick.
  unfold ret. by rewrite TrimSpace_plainEnds.
Qed.

Lemma picker_output_is_the_candidate_witness :
  SelectScriptWithFzf (pickerWorld scenarioTree ("/r/a/b/.tmux" +:+ String newline EmptyString))
    ["/r/a/.tmux"; "/r/a/b/.tmux"] []
  = ([Fzf ["/r/a/.tmux"; "/r/a/b/.tmux"]], Return (inr "/r/a/b/.tmux")).
Proof.
  refine (picker_output_is_the_candidate
            (pickerWorld scenarioTree ("/r/a/b/.tmux" +:+ String newline EmptyString))
            "r/" scenarioTree ["/r/a/.tmux"; "/r/a/b/.tmux"] None
            "/r/a/b/.tmux" EmptyString (String newline EmptyString) []
            eq_refl eq_refl eq_refl _ eq_refl _ _ eq_refl).
  - apply (bool_decide_unpack _). vm_compute. exact I.
  - constructor.
  - repeat constructor.
Defined.
